(** * Signal Desktop: the backups service ([BackupsService])

    A shallow embedding of [BackupsService.exportBackup] and
    [BackupsService.importBackup]: the streaming encrypt-then-MAC export
    pipeline, the two-pass authenticated import, and the [isRunning] guard.

    Byte streams are modelled by their complete content ([list byte]); a
    stream that fails is an [Err].  Asynchronous methods are trees of
    synchronous effects and [Await] nodes, so that the points where another
    call can interleave are explicit. *)

From Stdlib Require Import String List Bool Arith Lia NArith.
From Stdlib Require Import Strings.Byte.
Import ListNotations.

Set Implicit Arguments.

(* ================================================================== *)
(** ** Bytes *)

Definition bytes := list byte.

Definition bits8 : Type :=
  bool * (bool * (bool * (bool * (bool * (bool * (bool * bool)))))).

Definition xor_bits (a b : bits8) : bits8 :=
  let '(a0, (a1, (a2, (a3, (a4, (a5, (a6, a7))))))) := a in
  let '(b0, (b1, (b2, (b3, (b4, (b5, (b6, b7))))))) := b in
  (xorb a0 b0, (xorb a1 b1, (xorb a2 b2, (xorb a3 b3,
  (xorb a4 b4, (xorb a5 b5, (xorb a6 b6, xorb a7 b7))))))).

Definition byte_xor (a b : byte) : byte :=
  Byte.of_bits (xor_bits (Byte.to_bits a) (Byte.to_bits b)).

Definition or_bits (a b : bits8) : bits8 :=
  let '(a0, (a1, (a2, (a3, (a4, (a5, (a6, a7))))))) := a in
  let '(b0, (b1, (b2, (b3, (b4, (b5, (b6, b7))))))) := b in
  (a0 || b0, (a1 || b1, (a2 || b2, (a3 || b3,
  (a4 || b4, (a5 || b5, (a6 || b6, a7 || b7))))))).

Definition byte_or (a b : byte) : byte :=
  Byte.of_bits (or_bits (Byte.to_bits a) (Byte.to_bits b)).

(** Bytewise xor of two buffers, as long as the shorter one. *)
Fixpoint xor_bytes (a b : bytes) : bytes :=
  match a, b with
  | x :: a', y :: b' => byte_xor x y :: xor_bytes a' b'
  | _, _ => []
  end.

(** The bit mask [1 << i] of a byte, for [i < 8]; zero otherwise. *)
Definition bit_mask (i : nat) : bits8 :=
  (Nat.eqb i 0, (Nat.eqb i 1, (Nat.eqb i 2, (Nat.eqb i 3,
  (Nat.eqb i 4, (Nat.eqb i 5, (Nat.eqb i 6, Nat.eqb i 7))))))).

Definition flip_bit (i : nat) (b : byte) : byte :=
  Byte.of_bits (xor_bits (Byte.to_bits b) (bit_mask i)).

(** Flip bit [i mod 8] of byte [i / 8] of a buffer. *)
Fixpoint flip_byte_at (n i : nat) (s : bytes) : bytes :=
  match s with
  | [] => []
  | b :: s' =>
      match n with
      | 0 => flip_bit i b :: s'
      | S n' => b :: flip_byte_at n' i s'
      end
  end.

Definition flipBitAt (i : nat) (s : bytes) : bytes :=
  flip_byte_at (i / 8) (i mod 8) s.

Definition byte_of_nat (n : nat) : byte :=
  match Byte.of_N (N.of_nat n) with
  | Some b => b
  | None => x00
  end.

Definition nat_of_byte (b : byte) : nat := N.to_nat (Byte.to_N b).

Definition bytes_eqb (a b : bytes) : bool :=
  if list_eq_dec Byte.byte_eq_dec a b then true else false.

(* ================================================================== *)
(** ** Errors and results *)

Inductive Error : Type :=
| AssertionError (message : string)   (* thrown by util/assert strictAssert *)
| CipherError (message : string)      (* thrown by a cipher stage *)
| ZlibError (message : string)        (* thrown by createGunzip *)
| FramingError (message : string)     (* thrown by DelimitedStream *)
| ExternalError (message : string).   (* thrown by a collaborator *)

Inductive result (A : Type) : Type :=
| Ok (a : A)
| Err (e : Error).
Arguments Ok {A} a.
Arguments Err {A} e.

(** The error kinds of the specification (section 7). *)
Inductive ErrorKind : Type :=
| Busy
| MissingAuthentication
| AuthenticationFailed
| MalformedContainer
| CipherFailure
| OtherFailure.

Definition errorKind (e : Error) : ErrorKind :=
  match e with
  | AssertionError m =>
      if String.eqb m "BackupService is already running" then Busy
      else if String.eqb m "importBackup: Missing MAC" then MissingAuthentication
      else if String.eqb m "importBackup: Bad MAC" then AuthenticationFailed
      else if String.eqb m "importBackup: Bad MAC, second pass"
           then AuthenticationFailed
      else OtherFailure
  | CipherError _ => CipherFailure
  | ZlibError _ => MalformedContainer
  | FramingError _ => MalformedContainer
  | ExternalError _ => OtherFailure
  end.

Definition errorMessage (e : Error) : string :=
  match e with
  | AssertionError m | CipherError m | ZlibError m
  | FramingError m | ExternalError m => m
  end.

(** Modelled from the spec: types/errors [toLogFormat] is not among the
    sources; a log line only has to identify the error (section 7), so it is
    rendered by its message. *)
Definition toLogFormat (e : Error) : string := errorMessage e.

(* ================================================================== *)
(** ** Streams *)

(** A readable stream: the bytes it yields before ending, or the error it
    emits. *)
Definition Readable := result bytes.

(** A transform stage applied to the whole content of its upstream. *)
Definition Transform := bytes -> result bytes.

(** [a |> t]: pipe a readable into a transform; an upstream error tears the
    chain down. *)
Definition pipe {A B : Type} (r : result A) (t : A -> result B) : result B :=
  match r with
  | Ok a => t a
  | Err e => Err e
  end.

Notation "r |> t" := (pipe r t) (at level 50, left associativity).

(* ================================================================== *)
(** ** External primitives

    The Node.js [crypto] and [zlib] primitives and the two repository
    utilities whose algorithms the specification leaves open. *)

Class Externals : Type := {
  (** [createHmac('sha256', key)] fed with [m], then [digest()]. *)
  hmacSha256 : bytes -> bytes -> bytes;
  (** One AES-256 block operation under a key. *)
  aesEncryptBlock : bytes -> bytes -> bytes;
  aesDecryptBlock : bytes -> bytes -> bytes;
  (** [createGzip()] and [createGunzip()] over a complete stream. *)
  gzip : bytes -> bytes;
  gunzip : bytes -> result bytes;
  (** util/logPadding: the padding bytes appended to a stream of a given
      length. *)
  logPadding : nat -> bytes;
  (** util/DelimitedStream: split a byte stream into its length-delimited
      frames. *)
  delimitedFrames : bytes -> result (list bytes)
}.

Definition IV_LENGTH : nat := 16.
Definition MAC_LENGTH : nat := 32.
Definition BLOCK_LENGTH : nat := 16.
Definition AES256_KEY_LENGTH : nat := 32.

Inductive CipherType : Type := AES256CBC.
Inductive HashType : Type := size256.

Record KeyMaterial : Type := {
  aesKey : bytes;
  macKey : bytes
}.

(* ================================================================== *)
(** ** Pipeline stages *)

Section Stages.
Context {X : Externals}.

(** *** HMAC accumulators ([createHmac], [update], [digest]) *)

Record Hmac : Type := {
  hmacKey : bytes;
  absorbed : bytes
}.

Definition createHmac (_ : HashType) (key : bytes) : Hmac :=
  {| hmacKey := key; absorbed := [] |}.

Definition hmacUpdate (h : Hmac) (chunk : bytes) : Hmac :=
  {| hmacKey := hmacKey h; absorbed := absorbed h ++ chunk |}.

Definition hmacDigest (h : Hmac) : bytes :=
  hmacSha256 (hmacKey h) (absorbed h).

(** *** AES-256-CBC with the cipher's own PKCS#7 block padding
    ([createCipheriv]; its inverse is used by [getIvAndDecipher]) *)

Definition pkcs7Pad (p : bytes) : bytes :=
  let n := BLOCK_LENGTH - length p mod BLOCK_LENGTH in
  p ++ repeat (byte_of_nat n) n.

Definition pkcs7Unpad (p : bytes) : result bytes :=
  let n := nat_of_byte (last p x00) in
  if (1 <=? n) && (n <=? BLOCK_LENGTH) && (n <=? length p)
     && bytes_eqb (skipn (length p - n) p) (repeat (last p x00) n)
  then Ok (firstn (length p - n) p)
  else Err (CipherError "bad decrypt").

(** [n] blocks of [p] chained from [prev]. *)
Fixpoint cbcEncryptBlocks (n : nat) (key prev p : bytes) : bytes :=
  match n with
  | 0 => []
  | S n' =>
      let c := aesEncryptBlock key (xor_bytes (firstn BLOCK_LENGTH p) prev) in
      c ++ cbcEncryptBlocks n' key c (skipn BLOCK_LENGTH p)
  end.

Fixpoint cbcDecryptBlocks (n : nat) (key prev c : bytes) : bytes :=
  match n with
  | 0 => []
  | S n' =>
      let b := firstn BLOCK_LENGTH c in
      xor_bytes (aesDecryptBlock key b) prev
        ++ cbcDecryptBlocks n' key b (skipn BLOCK_LENGTH c)
  end.

Definition cbcEncrypt (key iv p : bytes) : bytes :=
  let padded := pkcs7Pad p in
  cbcEncryptBlocks (length padded / BLOCK_LENGTH) key iv padded.

Definition cbcDecrypt (key iv c : bytes) : result bytes :=
  if (length c mod BLOCK_LENGTH =? 0) && (1 <=? length c)
  then pkcs7Unpad (cbcDecryptBlocks (length c / BLOCK_LENGTH) key iv c)
  else Err (CipherError "wrong final block length").

(** [createCipheriv] throws while the cipher object is made, before any
    byte is piped: on an IV that is not one block long and on a key that is
    not 32 bytes long. *)
Definition createCipheriv (_ : CipherType) (key iv : bytes)
  : result Transform :=
  if negb (length iv =? IV_LENGTH)
  then Err (CipherError "Invalid initialization vector")
  else if negb (length key =? AES256_KEY_LENGTH)
  then Err (CipherError "Invalid key length")
  else Ok (fun p => Ok (cbcEncrypt key iv p)).

(** *** zlib *)

Definition createGzip : Transform := fun s => Ok (gzip s).
Definition createGunzip : Transform := gunzip.

(** *** Repository stream utilities *)

(** Modelled from the spec: util/logPadding [appendPaddingStream] is not
    among the sources.  Section 4.2: it appends deterministic padding bytes
    after the compressed stream; which bytes is left to [logPadding]. *)
Definition appendPaddingStream : Transform :=
  fun s => Ok (s ++ logPadding (length s)).

(** Modelled from the spec: util/prependStream is not among the sources.
    Sections 3 and 4.3: the IV travels as a cleartext prefix of the
    ciphertext stream. *)
Definition prependStream (prefix : bytes) : Transform :=
  fun s => Ok (prefix ++ s).

(** Modelled from the spec: util/appendMacStream is not among the sources.
    Section 4.4: HMAC-SHA-256 is computed incrementally over every byte
    written upstream and the 32-byte tag is appended once upstream ends. *)
Definition appendMacStream (key : bytes) : Transform :=
  fun s => Ok (s ++ hmacDigest (hmacUpdate (createHmac size256 key) s)).

(** Modelled from the spec: AttachmentCrypto [getMacAndUpdateHmac] is not
    among the sources.  Section 4.5: every byte is streamed through the HMAC
    accumulator except the final 32 bytes of the stream, which are
    intercepted and handed to the callback as [theirMac]; a stream that ends
    before a tag was observed never invokes the callback (section 7,
    [MissingAuthentication]).  The callback updates the caller's captured
    variables [V].  The result is the accumulator, the captured variables
    and the bytes passed downstream. *)
Definition getMacAndUpdateHmac {V : Type} (hmac : Hmac)
    (onTheirMac : bytes -> V -> V) (v : V) (s : bytes) : Hmac * V * bytes :=
  if MAC_LENGTH <=? length s then
    let n := length s - MAC_LENGTH in
    (hmacUpdate hmac (firstn n s), onTheirMac (skipn n s) v, firstn n s)
  else (hmac, v, []).

(** Modelled from the spec: AttachmentCrypto [getIvAndDecipher] is not among
    the sources.  Section 4.5: extract the IV from the stream prefix and
    decrypt the rest with the cipher key; a stream that ends before a whole
    IV is a cipher-stage error. *)
Definition getIvAndDecipher (key : bytes) : Transform :=
  fun s =>
    if IV_LENGTH <=? length s
    then cbcDecrypt key (firstn IV_LENGTH s) (skipn IV_LENGTH s)
    else Err (CipherError "getIvAndDecipher: stream ended before the IV").

(** util/DelimitedStream as a stage: bytes in, frames out. *)
Definition DelimitedStream : bytes -> result (list bytes) := delimitedFrames.

(** Modelled from the spec: Crypto [constantTimeEqual] is not among the
    sources.  Section 8.6: a non-short-circuiting comparison; every pair of
    bytes is combined into the accumulator before the verdict is read.
    Buffers of different lengths compare unequal; in [importBackup] both
    operands are 32 bytes long whenever HMAC tags are. *)
Definition constantTimeEqual (left right : bytes) : bool :=
  (length left =? length right)
  && Byte.eqb (fold_left byte_or (xor_bytes left right) x00) x00.

End Stages.

(* ================================================================== *)
(** ** Asynchronous methods *)

Inductive PipelineId : Type := ExportPipeline | ImportPass1 | ImportPass2.

(** What an observer of the service sees, in order. *)
Inductive Event : Type :=
| EvLog (message : string)         (* log.info *)
| EvPipelineStart (p : PipelineId) (* a [pipeline(...)] was started *)
| EvWrite (data : bytes)           (* bytes the export sink received *)
| EvDiscard (data : bytes)         (* bytes drained by the pass-1 sink *)
| EvRecords (frames : list bytes). (* frames the record sink received *)

(** A writable byte sink: its verdict on the bytes piped into it. *)
Definition Writable := bytes -> result unit.

(** The record sink ([BackupImportStream]): its verdict on the frames. *)
Definition RecordSink := list bytes -> result unit.

(** [createBackupStream]: the readable returned by the n-th invocation of
    the caller's closure within one import. *)
Definition Factory := nat -> Readable.

(** The synchronous operations a method performs on the service instance
    and on its collaborators. *)
Inductive Op : Type -> Type :=
| OpIsRunning : Op bool                       (* this.isRunning *)
| OpSetIsRunning : bool -> Op unit            (* this.isRunning = b *)
| OpLogInfo : string -> Op unit               (* log.info *)
| OpGetKeyMaterial : Op (result KeyMaterial)  (* getKeyMaterial() *)
| OpRandomBytes : nat -> Op bytes             (* randomBytes(n) *)
| OpNewBackupExportStream : Op Readable       (* new BackupExportStream + run *)
| OpNewBackupImportStream : Op RecordSink.    (* new BackupImportStream *)

(** An [async] method body: synchronous operations, and [Await] nodes where
    the method is suspended on a pipeline.  The awaited pipeline is described
    by what it yields and emits when it settles. *)
Inductive Async (A : Type) : Type :=
| Ret (a : A)
| Throw (e : Error)
| Sync (T : Type) (op : Op T) (k : T -> Async A)
| Await (T : Type) (p : PipelineId) (outcome : result (T * list Event))
        (k : result T -> Async A).
Arguments Ret {A} a.
Arguments Throw {A} e.
Arguments Sync {A T} op k.
Arguments Await {A T} p outcome k.

Fixpoint bind {A B : Type} (m : Async A) (f : A -> Async B) : Async B :=
  match m with
  | Ret a => f a
  | Throw e => Throw e
  | Sync op k => Sync op (fun x => bind (k x) f)
  | Await p o k => Await p o (fun r => bind (k r) f)
  end.

Notation "x <- m ;; f" := (bind m (fun x => f))
  (at level 61, m at next level, right associativity).
Notation "' pat <- m ;; f" := (bind m (fun x => let 'pat := x in f))
  (at level 61, pat pattern, m at next level, right associativity).
Notation "m ;;; f" := (bind m (fun _ => f))
  (at level 61, right associativity).

(** [try { body } finally { fin }] *)
Fixpoint tryFinally {A : Type} (body : Async A) (fin : Async unit) : Async A :=
  match body with
  | Ret a => fin ;;; Ret a
  | Throw e => fin ;;; Throw e
  | Sync op k => Sync op (fun x => tryFinally (k x) fin)
  | Await p o k => Await p o (fun r => tryFinally (k r) fin)
  end.

(** [try { body } catch (error) { handler }] *)
Fixpoint tryCatch {A : Type} (body : Async A) (handler : Error -> Async A)
  : Async A :=
  match body with
  | Ret a => Ret a
  | Throw e => handler e
  | Sync op k => Sync op (fun x => tryCatch (k x) handler)
  | Await p o k => Await p o (fun r => tryCatch (k r) handler)
  end.

Definition perform {T : Type} (op : Op T) : Async T := Sync op Ret.

(** Rethrow what a call or an awaited promise failed with. *)
Definition unwrap {T : Type} (r : result T) : Async T :=
  match r with
  | Ok x => Ret x
  | Err e => Throw e
  end.

(** [await pipeline(...)] *)
Definition await {T : Type} (p : PipelineId)
    (outcome : result (T * list Event)) : Async T :=
  Await p outcome unwrap.

(** Modelled from the spec: util/assert [strictAssert] is not among the
    sources.  Sections 4.6 and 7: a failed check fails the call at once with
    an error; the error carries the message given at the call site. *)
Definition strictAssert (condition : bool) (message : string) : Async unit :=
  if condition then Ret tt else Throw (AssertionError message).

(** [strictAssert(value != null, message)], which also narrows the type. *)
Definition strictAssertNotNull {T : Type} (value : option T)
    (message : string) : Async T :=
  match value with
  | Some v => Ret v
  | None => Throw (AssertionError message)
  end.

(** *** The service instance, its collaborators and the interpreter *)

Record World : Type := {
  isStarted : bool;
  isRunning : bool;
  trace : list Event
}.

(** The collaborators of one call.  A stream is modelled by its complete
    content, so a pipeline that fails does not determine how far the data
    had got by then: the last two fields say what the export sink and the
    record sink had received when a failing pipeline was torn down. *)
Record Env : Type := {
  getKeyMaterial : result KeyMaterial;
  randomBytes : nat -> bytes;
  backupExportStream : Readable;
  backupImportStream : RecordSink;
  writtenBeforeFailure : bytes;
  deliveredBeforeFailure : list bytes
}.

Definition emit (evs : list Event) (w : World) : World :=
  {| isStarted := isStarted w;
     isRunning := isRunning w;
     trace := trace w ++ evs |}.

Definition setIsRunning (b : bool) (w : World) : World :=
  {| isStarted := isStarted w;
     isRunning := b;
     trace := trace w |}.

Definition handle (env : Env) {T : Type} (op : Op T) (w : World) : T * World :=
  match op in Op T return T * World with
  | OpIsRunning => (isRunning w, w)
  | OpSetIsRunning b => (tt, setIsRunning b w)
  | OpLogInfo m => (tt, emit [EvLog m] w)
  | OpGetKeyMaterial => (getKeyMaterial env, w)
  | OpRandomBytes n => (randomBytes env n, w)
  | OpNewBackupExportStream => (backupExportStream env, w)
  | OpNewBackupImportStream => (backupImportStream env, w)
  end.

(** What the sink of a failing pipeline had received when the pipeline was
    torn down.  The first pass discards its data, so nothing is observed
    there. *)
Definition tornDown (env : Env) (p : PipelineId) : list Event :=
  match p with
  | ExportPipeline => [EvWrite (writtenBeforeFailure env)]
  | ImportPass1 => []
  | ImportPass2 => [EvRecords (deliveredBeforeFailure env)]
  end.

(** A pipeline settles: its start is observed, then what it emitted, or,
    when it fails, what had reached its sink by then. *)
Definition settle (env : Env) {T : Type} (p : PipelineId)
    (outcome : result (T * list Event)) (w : World) : result T * World :=
  match outcome with
  | Ok (x, evs) => (Ok x, emit (EvPipelineStart p :: evs) w)
  | Err e => (Err e, emit (EvPipelineStart p :: tornDown env p) w)
  end.

(** Run a method until it settles. *)
Fixpoint run {A : Type} (m : Async A) (env : Env) (w : World)
  : result A * World :=
  match m with
  | Ret a => (Ok a, w)
  | Throw e => (Err e, w)
  | Sync op k => let (x, w') := handle env op w in run (k x) env w'
  | Await p o k => let (r, w') := settle env p o w in run (k r) env w'
  end.

(** Run the synchronous part of a method: up to its first [Await], or to
    the end when it never suspends. *)
Fixpoint advance {A : Type} (m : Async A) (env : Env) (w : World)
  : Async A * World :=
  match m with
  | Sync op k => let (x, w') := handle env op w in advance (k x) env w'
  | _ => (m, w)
  end.

(** Resume a suspended method: the awaited pipeline settles and the method
    runs on to its next suspension. *)
Definition resume {A : Type} (m : Async A) (env : Env) (w : World)
  : Async A * World :=
  match m with
  | Await p o k => let (r, w') := settle env p o w in advance (k r) env w'
  | _ => (m, w)
  end.

Definition suspended {A : Type} (m : Async A) : bool :=
  match m with
  | Await _ _ _ => true
  | _ => false
  end.

Definition idle : World :=
  {| isStarted := false; isRunning := false; trace := [] |}.

(** Projections of a trace. *)
Definition writesOf (t : list Event) : list bytes :=
  flat_map (fun e => match e with EvWrite d => [d] | _ => [] end) t.

Definition recordsOf (t : list Event) : list bytes :=
  flat_map (fun e => match e with EvRecords fs => fs | _ => [] end) t.

Definition startsOf (t : list Event) : list PipelineId :=
  flat_map (fun e => match e with EvPipelineStart p => [p] | _ => [] end) t.

Definition PipelineId_eqb (a b : PipelineId) : bool :=
  match a, b with
  | ExportPipeline, ExportPipeline
  | ImportPass1, ImportPass1
  | ImportPass2, ImportPass2 => true
  | _, _ => false
  end.

Definition started (p : PipelineId) (t : list Event) : bool :=
  existsb (PipelineId_eqb p) (startsOf t).

(* ================================================================== *)
(** ** BackupsService *)

Section BackupsService.
Context {X : Externals}.

(** The last stage of the export pipeline: the caller's sink, which
    received the whole data when it accepts.  What it had received when it
    or an upstream stage fails is recorded by [settle]. *)
Definition writeTo (sink : Writable) (data : bytes)
  : result (unit * list Event) :=
  sink data |> fun _ => Ok (tt, [EvWrite data]).

(** A stage that carries the variables captured by an upstream stage
    alongside the bytes. *)
Definition through {S A B : Type} (t : A -> result B) (x : S * A)
  : result (S * B) :=
  t (snd x) |> fun b => Ok (fst x, b).

(** The pass-1 sink: a [PassThrough] that is resumed, so the data is
    discarded. *)
Definition discard {S : Type} (x : S * bytes) : result (S * list Event) :=
  Ok (fst x, [EvDiscard (snd x)]).

(** The last stage of the second pass: the record sink, which received
    every frame when it accepts.  What it had received when it or an
    upstream stage fails is recorded by [settle]. *)
Definition deliverTo {S : Type} (sink : RecordSink) (x : S * list bytes)
  : result (S * list Event) :=
  sink (snd x) |> fun _ => Ok (fst x, [EvRecords (snd x)]).

(** lodash [noop] as an [onTheirMac] callback: nothing is captured. *)
Definition noop {V : Type} (_ : bytes) (v : V) : V := v.

Definition exportBackup (sink : Writable) : Async unit :=
  running <- perform OpIsRunning ;;
  strictAssert (negb running) "BackupService is already running" ;;;
  perform (OpLogInfo "exportBackup: starting...") ;;;
  perform (OpSetIsRunning true) ;;;
  tryFinally
    (km <- bind (perform OpGetKeyMaterial) unwrap ;;
     recordStream <- perform OpNewBackupExportStream ;;
     iv <- perform (OpRandomBytes IV_LENGTH) ;;
     (* the stages are made while the arguments of pipeline(...) are
        evaluated; createCipheriv can throw there *)
     cipher <- unwrap (createCipheriv AES256CBC (aesKey km) iv) ;;
     await ExportPipeline
       (recordStream
          |> createGzip
          |> appendPaddingStream
          |> cipher
          |> prependStream iv
          |> appendMacStream (macKey km)
          |> writeTo sink))
    (perform (OpLogInfo "exportBackup: finished...") ;;;
     perform (OpSetIsRunning false)).

Definition importBackup (createBackupStream : Factory) : Async unit :=
  running <- perform OpIsRunning ;;
  strictAssert (negb running) "BackupService is already running" ;;;
  perform (OpLogInfo "importBackup: starting...") ;;;
  perform (OpSetIsRunning true) ;;;
  tryFinally
    (tryCatch
       (km <- bind (perform OpGetKeyMaterial) unwrap ;;
        (* First pass - don't decrypt, only verify mac *)
        let hmac := createHmac size256 (macKey km) in
        let theirMac : option bytes := None in
        '(hmac, theirMac) <- await ImportPass1
          (createBackupStream 0
             |> (fun s => Ok (getMacAndUpdateHmac hmac
                                (fun theirMacValue _ => Some theirMacValue)
                                theirMac s))
             |> discard) ;;
        theirMac <- strictAssertNotNull theirMac "importBackup: Missing MAC" ;;
        strictAssert (constantTimeEqual (hmacDigest hmac) theirMac)
          "importBackup: Bad MAC" ;;;
        (* Second pass - decrypt (but still check the mac at the end) *)
        let hmac := createHmac size256 (macKey km) in
        recordSink <- perform OpNewBackupImportStream ;;
        '(hmac, _) <- await ImportPass2
          (createBackupStream 1
             |> (fun s => Ok (getMacAndUpdateHmac hmac noop tt s))
             |> through (getIvAndDecipher (aesKey km))
             |> through createGunzip
             |> through DelimitedStream
             |> deliverTo recordSink) ;;
        strictAssert (constantTimeEqual (hmacDigest hmac) theirMac)
          "importBackup: Bad MAC, second pass" ;;;
        perform (OpLogInfo "importBackup: finished..."))
       (fun error =>
          perform (OpLogInfo
                     ("importBackup: failed, error: " ++ toLogFormat error)) ;;;
          Throw error))
    (perform (OpSetIsRunning false)).

(** The two public operations guarded by [isRunning]. *)
Inductive Operation : Type :=
| CallExport (sink : Writable)
| CallImport (createBackupStream : Factory).

Definition invoke (o : Operation) : Async unit :=
  match o with
  | CallExport sink => exportBackup sink
  | CallImport f => importBackup f
  end.

(** Modelled on the spec's words (section 6, wire format):
    [IV(16) || Ciphertext || MAC(32)] with
    [Ciphertext = AES-256-CBC(cipherKey, IV, Pad(Gzip(recordStream)))] and
    [MAC = HMAC-SHA-256(macKey, IV || Ciphertext)]. *)
Definition specPad (s : bytes) : bytes := s ++ logPadding (length s).

Definition specCiphertext (km : KeyMaterial) (iv recordStream : bytes) : bytes :=
  cbcEncrypt (aesKey km) iv (specPad (gzip recordStream)).

Definition specMac (km : KeyMaterial) (iv recordStream : bytes) : bytes :=
  hmacSha256 (macKey km) (iv ++ specCiphertext km iv recordStream).

Definition EncryptedBackupEnvelope (km : KeyMaterial) (iv recordStream : bytes)
  : bytes :=
  iv ++ specCiphertext km iv recordStream ++ specMac km iv recordStream.

(** The parts of an envelope as an importer delimits them. *)
Definition envelopePayload (e : bytes) : bytes :=
  firstn (length e - MAC_LENGTH) e.

Definition envelopeMac (e : bytes) : bytes :=
  skipn (length e - MAC_LENGTH) e.

Definition envelopeIv (e : bytes) : bytes := firstn IV_LENGTH e.

Definition envelopeCiphertext (e : bytes) : bytes :=
  skipn IV_LENGTH (envelopePayload e).

End BackupsService.

(* ================================================================== *)
(** ** What a call has done once it settles

    The result and the events of a call that passed the busy check, read off
    the method bodies; [run_exportBackup] and [run_importBackup] below prove
    that running the methods yields exactly these. *)

Section Outcomes.
Context {X : Externals}.

Definition exportOutcome (env : Env) (sink : Writable)
  : result unit * list Event :=
  match getKeyMaterial env with
  | Err e =>
      (Err e, [EvLog "exportBackup: starting..."; EvLog "exportBackup: finished..."])
  | Ok km =>
      let iv := randomBytes env IV_LENGTH in
      match createCipheriv AES256CBC (aesKey km) iv with
      | Err e =>
          (Err e, [EvLog "exportBackup: starting...";
                   EvLog "exportBackup: finished..."])
      | Ok cipher =>
          match backupExportStream env
                  |> createGzip
                  |> appendPaddingStream
                  |> cipher
                  |> prependStream iv
                  |> appendMacStream (macKey km)
                  |> writeTo sink
          with
          | Ok (_, evs) =>
              (Ok tt,
               EvLog "exportBackup: starting..."
                 :: EvPipelineStart ExportPipeline
                 :: evs ++ [EvLog "exportBackup: finished..."])
          | Err e =>
              (Err e,
               [EvLog "exportBackup: starting...";
                EvPipelineStart ExportPipeline;
                EvWrite (writtenBeforeFailure env);
                EvLog "exportBackup: finished..."])
          end
      end
  end.

(** A failed import: what was observed up to the failure, then the log line
    of the [catch] block. *)
Definition importFailed (e : Error) (evs : list Event)
  : result unit * list Event :=
  (Err e,
   EvLog "importBackup: starting..." :: evs
     ++ [EvLog ("importBackup: failed, error: " ++ toLogFormat e)]).

(** The second-pass pipeline of [importBackup]. *)
Definition secondPass (km : KeyMaterial) (source : Readable)
    (recordSink : RecordSink) : result (Hmac * unit * list Event) :=
  source
    |> (fun s => Ok (getMacAndUpdateHmac (createHmac size256 (macKey km))
                       noop tt s))
    |> through (getIvAndDecipher (aesKey km))
    |> through createGunzip
    |> through DelimitedStream
    |> deliverTo recordSink.

Definition importOutcome (env : Env) (createBackupStream : Factory)
  : result unit * list Event :=
  match getKeyMaterial env with
  | Err e => importFailed e []
  | Ok km =>
      match createBackupStream 0 with
      | Err e => importFailed e [EvPipelineStart ImportPass1]
      | Ok s1 =>
          let x := getMacAndUpdateHmac (createHmac size256 (macKey km))
                     (fun theirMacValue _ => Some theirMacValue) None s1 in
          let pass1 := [EvPipelineStart ImportPass1; EvDiscard (snd x)] in
          match snd (fst x) with
          | None =>
              importFailed (AssertionError "importBackup: Missing MAC") pass1
          | Some theirMac =>
              if constantTimeEqual (hmacDigest (fst (fst x))) theirMac then
                match secondPass km (createBackupStream 1)
                        (backupImportStream env) with
                | Err e =>
                    importFailed e
                      (pass1 ++ [EvPipelineStart ImportPass2;
                                 EvRecords (deliveredBeforeFailure env)])
                | Ok (hmac2, _, evs) =>
                    if constantTimeEqual (hmacDigest hmac2) theirMac then
                      (Ok tt,
                       EvLog "importBackup: starting..." :: pass1
                         ++ EvPipelineStart ImportPass2 :: evs
                         ++ [EvLog "importBackup: finished..."])
                    else
                      importFailed
                        (AssertionError "importBackup: Bad MAC, second pass")
                        (pass1 ++ EvPipelineStart ImportPass2 :: evs)
                end
              else importFailed (AssertionError "importBackup: Bad MAC") pass1
          end
      end
  end.

(** The world a guarded call leaves behind. *)
Definition settled (evs : list Event) (w : World) : World :=
  setIsRunning false (emit evs w).

End Outcomes.

(* ================================================================== *)
(** ** Suspension points and the flag discipline *)

(** Does the operation write [this.isRunning]? *)
Definition touchesFlag {T : Type} (op : Op T) : bool :=
  match op with
  | OpSetIsRunning _ => true
  | _ => false
  end.

(** A body that never writes the flag. *)
Fixpoint FlagFree {A : Type} (m : Async A) : Prop :=
  match m with
  | Ret _ | Throw _ => True
  | Sync op k => touchesFlag op = false /\ forall x, FlagFree (k x)
  | Await _ _ k => forall r, FlagFree (k r)
  end.

(** A body that never suspends. *)
Fixpoint AwaitFree {A : Type} (m : Async A) : Prop :=
  match m with
  | Ret _ | Throw _ => True
  | Sync _ k => forall x, AwaitFree (k x)
  | Await _ _ _ => False
  end.

(** A body that no longer suspends once it has written the flag. *)
Fixpoint Held {A : Type} (m : Async A) : Prop :=
  match m with
  | Ret _ | Throw _ => True
  | Sync op k =>
      if touchesFlag op then forall x, AwaitFree (k x)
      else forall x, Held (k x)
  | Await _ _ k => forall r, Held (k r)
  end.

(** The value an operation writes to the flag, if it writes it. *)
Definition flagWritten {T : Type} (op : Op T) : option bool :=
  match op with
  | OpSetIsRunning b => Some b
  | _ => None
  end.

(** A method that raises the flag before its first suspension and is held
    from then on. *)
Fixpoint Raised {A : Type} (m : Async A) : Prop :=
  match m with
  | Ret _ | Throw _ => True
  | Sync op k =>
      match flagWritten op with
      | Some true => forall x, Held (k x)
      | Some false => forall x, AwaitFree (k x)
      | None => forall x, Raised (k x)
      end
  | Await _ _ _ => False
  end.

(** [InFlight env m w t w']: the method [m], called in world [w], is
    suspended as [t] in world [w'], waiting for a pipeline to settle. *)
Inductive InFlight (env : Env) {A : Type}
  : Async A -> World -> Async A -> World -> Prop :=
| InFlight_first (m : Async A) (w : World) (t : Async A) (w' : World) :
    advance m env w = (t, w') -> suspended t = true ->
    InFlight env m w t w'
| InFlight_next (m : Async A) (w : World) (t : Async A) (w' : World)
                (t' : Async A) (w'' : World) :
    InFlight env m w t w' ->
    resume t env w' = (t', w'') -> suspended t' = true ->
    InFlight env m w t' w''.

(* ================================================================== *)
(** ** The rest of the service: start-up, periodic refresh, test harness

    [start], [runPeriodicRefresh], [exportBackupData], [exportToDisk] and
    [exportWithDialog].  What they do beyond the flags and the [log.info]
    lines of [World] is recorded in a second trace. *)

Inductive HostEvent : Type :=
| HLogWarn (message : string)                  (* log.warn *)
| HLogError (message detail : string)          (* log.error *)
| HApiRefresh                                  (* this.api.refresh() *)
| HCredentialsStart                            (* this.credentials.start() *)
| HCreateWriteStream (path : string)           (* createWriteStream(path) *)
| HSaveAttachment (name : string) (data : bytes). (* saveAttachmentToDisk *)

Record Host : Type := {
  world : World;              (* the instance fields and the core trace *)
  intervals : list N;         (* periods of the registered setInterval timers *)
  refreshing : nat;           (* api.refresh() promises still pending *)
  hostTrace : list HostEvent
}.

Definition onWorld (f : World -> World) (h : Host) : Host :=
  {| world := f (world h);
     intervals := intervals h;
     refreshing := refreshing h;
     hostTrace := hostTrace h |}.

Definition hostEmit (evs : list HostEvent) (h : Host) : Host :=
  {| world := world h;
     intervals := intervals h;
     refreshing := refreshing h;
     hostTrace := hostTrace h ++ evs |}.

Definition setRefreshing (n : nat) (h : Host) : Host :=
  {| world := world h;
     intervals := intervals h;
     refreshing := n;
     hostTrace := hostTrace h |}.

Definition setInterval (ms : N) (h : Host) : Host :=
  {| world := world h;
     intervals := intervals h ++ [ms];
     refreshing := refreshing h;
     hostTrace := hostTrace h |}.

Definition setIsStarted (b : bool) (w : World) : World :=
  {| isStarted := b;
     isRunning := isRunning w;
     trace := trace w |}.

(** Run a function of the service world inside the host. *)
Definition inWorld {A : Type} (f : World -> result A * World) (h : Host)
  : result A * Host :=
  let (r, w') := f (world h) in (r, onWorld (fun _ => w') h).

(** [new BackupsService()]: both flags false, nothing scheduled. *)
Definition newService : Host :=
  {| world := idle; intervals := []; refreshing := 0; hostTrace := [] |}.

Definition credentialsStarts (h : Host) : nat :=
  length (filter (fun e => match e with HCredentialsStart => true | _ => false end)
            (hostTrace h)).

Definition apiRefreshCalls (h : Host) : nat :=
  length (filter (fun e => match e with HApiRefresh => true | _ => false end)
            (hostTrace h)).

(** The [log.info] lines of a core trace. *)
Definition logsOf (t : list Event) : list string :=
  flat_map (fun e => match e with EvLog m => [m] | _ => [] end) t.

(** Refreshes logged as done, and refreshes logged as failed. *)
Definition refreshedLogs (t : list Event) : nat :=
  count_occ string_dec (logsOf t) "Backup: refreshed"%string.

Definition refreshErrors (h : Host) : nat :=
  length (filter (fun e => match e with HLogError _ _ => true | _ => false end)
            (hostTrace h)).

Definition savedAttachments (t : list HostEvent) : list (string * bytes) :=
  flat_map (fun e => match e with
                     | HSaveAttachment n d => [(n, d)]
                     | _ => []
                     end) t.

Definition openedPaths (t : list HostEvent) : list string :=
  flat_map (fun e => match e with
                     | HCreateWriteStream p => [p]
                     | _ => []
                     end) t.

Section HostService.
Context {X : Externals}.

(** util/durations [HOUR] is not among the sources: a parameter. *)
Variable HOUR : N.

Definition BACKUP_REFRESH_INTERVAL : N := 24 * HOUR.

(** [runPeriodicRefresh], up to its [await]: the [try] block is entered
    and [this.api.refresh()] is called. *)
Definition runPeriodicRefresh_call (h : Host) : Host :=
  setRefreshing (S (refreshing h)) (hostEmit [HApiRefresh] h).

(** [runPeriodicRefresh], from its [await] on: the pending refresh settles
    with [refreshed]; the result is what the method's own promise settles
    with. *)
Definition runPeriodicRefresh_settle (refreshed : result unit) (h : Host)
  : result unit * Host :=
  match refreshing h with
  | 0 => (Ok tt, h)
  | S n =>
      match refreshed with
      | Ok _ =>
          (Ok tt, onWorld (emit [EvLog "Backup: refreshed"]) (setRefreshing n h))
      | Err error =>
          (Ok tt,
           hostEmit [HLogError "Backup: periodic refresh failed"
                       (toLogFormat error)]
             (setRefreshing n h))
      end
  end.

Definition start (h : Host) : Host :=
  if isStarted (world h) then
    hostEmit [HLogWarn "BackupsService: already started"] h
  else
    let h := onWorld (setIsStarted true) h in
    let h := onWorld (emit [EvLog "BackupsService: starting..."]) h in
    let h := setInterval BACKUP_REFRESH_INTERVAL h in
    let h := runPeriodicRefresh_call h in
    hostEmit [HCredentialsStart] h.

(** The [i]-th registered interval timer fires: its callback drops a
    [runPeriodicRefresh()]. *)
Definition intervalFires (i : nat) (h : Host) : Host :=
  match nth_error (intervals h) i with
  | Some _ => runPeriodicRefresh_call h
  | None => h
  end.

(** A [PassThrough] sink accepts whatever is piped into it. *)
Definition passThrough : Writable := fun _ => Ok tt.

(** [exportBackupData]: the chunks pushed by the ['data'] listener are the
    writes the sink received during the call, i.e. the [EvWrite] events the
    call appended; they are concatenated once the export has resolved. *)
Definition exportBackupData (env : Env) (w : World) : result bytes * World :=
  let sink := passThrough in
  let seen := length (trace w) in
  let (r, w') := run (exportBackup sink) env w in
  match r with
  | Ok _ => (Ok (concat (writesOf (skipn seen (trace w')))), w')
  | Err e => (Err e, w')
  end.

(** [exportToDisk]: the write stream is created while the argument is
    evaluated, before [exportBackup] is entered. *)
Definition exportToDisk (env : Env) (createWriteStream : string -> Writable)
    (path : string) (h : Host) : result unit * Host :=
  let h := hostEmit [HCreateWriteStream path] h in
  inWorld (run (exportBackup (createWriteStream path)) env) h.

(** [exportWithDialog]; [saveAttachmentToDisk] is the migration hook of the
    window, given by its verdict on a name and the data. *)
Definition exportWithDialog (env : Env)
    (saveAttachmentToDisk : string -> bytes -> result unit) (h : Host)
  : result unit * Host :=
  match inWorld (exportBackupData env) h with
  | (Err e, h') => (Err e, h')
  | (Ok data, h') =>
      (saveAttachmentToDisk "backup.bin"%string data,
       hostEmit [HSaveAttachment "backup.bin" data] h')
  end.

(** What can happen to a service instance, one step at a time; calls are
    awaited to completion. *)
Inductive HostAction : Type :=
| DoStart
| DoIntervalFires (i : nat)
| DoRefreshSettles (refreshed : result unit)
| DoCall (env : Env) (o : Operation)
| DoExportBackupData (env : Env)
| DoExportToDisk (env : Env) (createWriteStream : string -> Writable)
                 (path : string)
| DoExportWithDialog (env : Env)
                     (saveAttachmentToDisk : string -> bytes -> result unit).

Definition hostStep (h : Host) (a : HostAction) : Host :=
  match a with
  | DoStart => start h
  | DoIntervalFires i => intervalFires i h
  | DoRefreshSettles r => snd (runPeriodicRefresh_settle r h)
  | DoCall env o => snd (inWorld (run (invoke o) env) h)
  | DoExportBackupData env => snd (inWorld (exportBackupData env) h)
  | DoExportToDisk env fs path => snd (exportToDisk env fs path h)
  | DoExportWithDialog env save => snd (exportWithDialog env save h)
  end.

Definition hostRun (actions : list HostAction) (h : Host) : Host :=
  fold_left hostStep actions h.

(** What holds of a service instance whatever has been done to it. *)
Definition HostInvariant (h : Host) : Prop :=
  isRunning (world h) = false
  /\ intervals h
     = (if isStarted (world h) then [BACKUP_REFRESH_INTERVAL] else [])
  /\ credentialsStarts h = (if isStarted (world h) then 1 else 0)
  /\ (isStarted (world h) = false -> apiRefreshCalls h = 0)
  /\ apiRefreshCalls h
     = refreshing h + refreshedLogs (trace (world h)) + refreshErrors h.

(** The outcome of a guarded call, by operation. *)
Definition outcomeOf (env : Env) (o : Operation) : result unit * list Event :=
  match o with
  | CallExport sink => exportOutcome env sink
  | CallImport f => importOutcome env f
  end.

(** Calls awaited one after the other: the results, in order, and the
    world they leave. *)
Fixpoint runAll (calls : list (Env * Operation)) (w : World)
  : list (result unit) * World :=
  match calls with
  | [] => ([], w)
  | (env, o) :: rest =>
      let (r, w') := run (invoke o) env w in
      let (rs, w'') := runAll rest w' in
      (r :: rs, w'')
  end.

End HostService.

(* ================================================================== *)
(** ** What is assumed of the external primitives *)

(** HMAC-SHA-256 tags are 32 bytes long. *)
Definition HmacTagLength (X : Externals) : Prop :=
  forall key m, length (hmacSha256 key m) = MAC_LENGTH.

(** The AES block operations map a 16-byte block to a 16-byte block and
    decryption undoes encryption. *)
Definition AesBlockInverse (X : Externals) : Prop :=
  forall key b, length b = BLOCK_LENGTH ->
    length (aesEncryptBlock key b) = BLOCK_LENGTH
    /\ aesDecryptBlock key (aesEncryptBlock key b) = b.

(* ================================================================== *)
(** ** A small executable instance of the primitives

    Used to run the embedding on concrete inputs.  None of it is
    cryptography: the tag is a checksum and the block cipher an xor. *)

Module Toy.

Definition pad_to (n : nat) (s : bytes) : bytes :=
  firstn n (s ++ repeat x00 n).

Definition hmacSha256 (key m : bytes) : bytes :=
  pad_to MAC_LENGTH [fold_left byte_xor (key ++ m) x5c].

Definition aesBlock (key b : bytes) : bytes :=
  xor_bytes b (pad_to BLOCK_LENGTH key).

Definition gzip (s : bytes) : bytes :=
  flat_map (fun b => [x01; b]) s ++ [x00].

Fixpoint gunzip (s : bytes) : result bytes :=
  match s with
  | [] => Err (ZlibError "unexpected end of file")
  | m :: rest =>
      if Byte.eqb m x00 then Ok []
      else match rest with
           | [] => Err (ZlibError "unexpected end of file")
           | b :: rest' => gunzip rest' |> fun d => Ok (b :: d)
           end
  end.

Definition logPadding (n : nat) : bytes := repeat x00 (8 - n mod 8).

Fixpoint frames (fuel : nat) (s : bytes) : result (list bytes) :=
  match s with
  | [] => Ok []
  | l :: rest =>
      match fuel with
      | 0 => Err (FramingError "out of fuel")
      | S fuel' =>
          let n := nat_of_byte l in
          if n <=? length rest
          then frames fuel' (skipn n rest) |> fun fs => Ok (firstn n rest :: fs)
          else Err (FramingError "truncated frame")
      end
  end.

Definition delimitedFrames (s : bytes) : result (list bytes) :=
  frames (length s) s.

Definition externals : Externals :=
  Build_Externals hmacSha256 aesBlock aesBlock gzip gunzip logPadding
    delimitedFrames.

Definition keys : KeyMaterial :=
  {| aesKey := [x11; x22; x33] ++ repeat x44 29; macKey := [x0a; x0b] |}.

Definition iv1 : bytes := repeat x07 IV_LENGTH.
Definition iv2 : bytes := repeat x08 IV_LENGTH.

(** Two frames, "hi" and "!", each behind its length byte. *)
Definition records : list bytes := [[x68; x69]; [x21]].
Definition recordStream : bytes := [x02; x68; x69; x01; x21].

Definition acceptBytes : Writable := fun _ => Ok tt.
Definition acceptFrames : RecordSink := fun _ => Ok tt.

Definition env (iv : bytes) : Env :=
  {| getKeyMaterial := Ok keys;
     randomBytes := fun n => firstn n iv;
     backupExportStream := Ok recordStream;
     backupImportStream := acceptFrames;
     writtenBeforeFailure := [];
     deliveredBeforeFailure := [] |}.

Definition envelope1 : bytes :=
  EncryptedBackupEnvelope (X := externals) keys iv1 recordStream.

Definition replay (e : bytes) : Factory := fun _ => Ok e.

End Toy.

(** Further concrete inputs: failing collaborators and other worlds. *)
Module ToyCases.

Definition envNoKey : Env :=
  {| getKeyMaterial := Err (ExternalError "no key material");
     randomBytes := fun n => firstn n Toy.iv1;
     backupExportStream := Ok Toy.recordStream;
     backupImportStream := Toy.acceptFrames;
     writtenBeforeFailure := [];
     deliveredBeforeFailure := [] |}.

(** Key material whose cipher key is too short for AES-256. *)
Definition shortKeys : KeyMaterial :=
  {| aesKey := [x11; x22; x33]; macKey := [x0a; x0b] |}.

Definition envShortKey : Env :=
  {| getKeyMaterial := Ok shortKeys;
     randomBytes := fun n => firstn n Toy.iv1;
     backupExportStream := Ok Toy.recordStream;
     backupImportStream := Toy.acceptFrames;
     writtenBeforeFailure := [];
     deliveredBeforeFailure := [] |}.

(** A service that was started and has logged before. *)
Definition startedWorld : World :=
  {| isStarted := true;
     isRunning := false;
     trace := [EvLog "BackupsService: starting..."] |}.

(** An import of a truncated stream, then an export. *)
Definition twoCalls : list (Env * Operation) :=
  [(Toy.env Toy.iv1,
    CallImport (Toy.replay (repeat x00 40)));
   (Toy.env Toy.iv1, CallExport Toy.acceptBytes)].

End ToyCases.

(* ================================================================== *)
(** * Properties *)

Unset Implicit Arguments.

(** ** Bytes *)

Section ByteFacts.

Lemma xor_bits_involutive (a b : bits8) : xor_bits (xor_bits a b) b = a.
Proof.
  destruct a as (a0 & a1 & a2 & a3 & a4 & a5 & a6 & a7).
  destruct b as (b0 & b1 & b2 & b3 & b4 & b5 & b6 & b7).
  unfold xor_bits.
  repeat f_equal; rewrite xorb_assoc, xorb_nilpotent; apply xorb_false_r.
Qed.

Lemma xor_bits_comm (a b : bits8) : xor_bits a b = xor_bits b a.
Proof.
  destruct a as (a0 & a1 & a2 & a3 & a4 & a5 & a6 & a7).
  destruct b as (b0 & b1 & b2 & b3 & b4 & b5 & b6 & b7).
  unfold xor_bits.
  now rewrite (xorb_comm a0), (xorb_comm a1), (xorb_comm a2), (xorb_comm a3),
    (xorb_comm a4), (xorb_comm a5), (xorb_comm a6), (xorb_comm a7).
Qed.

Lemma to_bits_inj (a b : byte) : Byte.to_bits a = Byte.to_bits b -> a = b.
Proof.
  intros E. rewrite <- (Byte.of_bits_to_bits a), <- (Byte.of_bits_to_bits b).
  now rewrite E.
Qed.

Lemma byte_xor_involutive (a b : byte) : byte_xor (byte_xor a b) b = a.
Proof.
  unfold byte_xor. rewrite Byte.to_bits_of_bits, xor_bits_involutive.
  apply Byte.of_bits_to_bits.
Qed.

Lemma byte_xor_comm (a b : byte) : byte_xor a b = byte_xor b a.
Proof. unfold byte_xor. now rewrite xor_bits_comm. Qed.

Lemma byte_xor_cancel_l (a b c : byte) : byte_xor a b = byte_xor a c -> b = c.
Proof.
  intros E. rewrite <- (byte_xor_involutive b a), <- (byte_xor_involutive c a).
  now rewrite (byte_xor_comm b a), (byte_xor_comm c a), E.
Qed.

Lemma byte_xor_zero_iff (a b : byte) : byte_xor a b = x00 <-> a = b.
Proof.
  split.
  - intros E. rewrite <- (byte_xor_involutive a b), E.
    apply to_bits_inj. unfold byte_xor. rewrite Byte.to_bits_of_bits.
    change (Byte.to_bits x00) with
      (false, (false, (false, (false, (false, (false, (false, false))))))).
    destruct (Byte.to_bits b) as (b0 & b1 & b2 & b3 & b4 & b5 & b6 & b7).
    reflexivity.
  - intros ->. unfold byte_xor.
    destruct (Byte.to_bits b) as (b0 & b1 & b2 & b3 & b4 & b5 & b6 & b7).
    unfold xor_bits. now rewrite !xorb_nilpotent.
Qed.

Lemma or_bits_zero (a b : bits8) :
  or_bits a b
    = (false, (false, (false, (false, (false, (false, (false, false))))))) ->
  a = (false, (false, (false, (false, (false, (false, (false, false)))))))
  /\ b = (false, (false, (false, (false, (false, (false, (false, false))))))).
Proof.
  destruct a as (a0 & a1 & a2 & a3 & a4 & a5 & a6 & a7).
  destruct b as (b0 & b1 & b2 & b3 & b4 & b5 & b6 & b7).
  unfold or_bits. intros E. injection E as E0 E1 E2 E3 E4 E5 E6 E7.
  apply orb_false_elim in E0, E1, E2, E3, E4, E5, E6, E7.
  destruct E0, E1, E2, E3, E4, E5, E6, E7. subst. auto.
Qed.

Lemma byte_or_zero_iff (a b : byte) : byte_or a b = x00 <-> a = x00 /\ b = x00.
Proof.
  split.
  - intros E. apply (f_equal Byte.to_bits) in E. unfold byte_or in E.
    rewrite Byte.to_bits_of_bits in E.
    change (Byte.to_bits x00) with
      (false, (false, (false, (false, (false, (false, (false, false))))))) in E.
    apply or_bits_zero in E. destruct E as [Ea Eb].
    split; apply to_bits_inj; assumption.
  - intros [-> ->]. reflexivity.
Qed.

Lemma xor_bytes_length (a b : bytes) :
  length (xor_bytes a b) = Nat.min (length a) (length b).
Proof.
  revert b. induction a as [|x a IH]; intros [|y b]; simpl; auto.
Qed.

Lemma xor_bytes_involutive (a b : bytes) :
  length a = length b -> xor_bytes (xor_bytes a b) b = a.
Proof.
  revert b. induction a as [|x a IH]; intros [|y b]; simpl; try discriminate; auto.
  intros E. injection E as E. now rewrite byte_xor_involutive, IH.
Qed.

Lemma xor_bytes_cancel_l (a b c : bytes) :
  length a = length b -> length a = length c ->
  xor_bytes a b = xor_bytes a c -> b = c.
Proof.
  revert b c. induction a as [|x a IH]; intros [|y b] [|z c]; simpl;
    try discriminate; auto.
  intros Eb Ec E. injection Eb as Eb. injection Ec as Ec.
  injection E as E1 E2. apply byte_xor_cancel_l in E1. subst z.
  f_equal. now apply IH.
Qed.

Lemma flip_bit_changes (i : nat) (b : byte) : i < 8 -> flip_bit i b <> b.
Proof.
  intros Hi E. apply (f_equal Byte.to_bits) in E. unfold flip_bit in E.
  rewrite Byte.to_bits_of_bits in E.
  destruct (Byte.to_bits b) as (b0 & b1 & b2 & b3 & b4 & b5 & b6 & b7).
  do 8 (destruct i as [|i]; [ simpl in E; inversion E;
    repeat match goal with
           | H : xorb ?x true = ?x |- _ => destruct x; discriminate H
           end | ]).
  lia.
Qed.

Lemma flip_byte_at_length (n i : nat) (s : bytes) :
  length (flip_byte_at n i s) = length s.
Proof.
  revert n. induction s as [|b s IH]; intros [|n]; simpl; auto.
Qed.

Lemma flip_byte_at_changes (n i : nat) (s : bytes) :
  n < length s -> i < 8 -> flip_byte_at n i s <> s.
Proof.
  revert n. induction s as [|b s IH]; intros [|n]; simpl; try lia.
  - intros _ Hi E. injection E as E. now apply (flip_bit_changes i b Hi).
  - intros Hn Hi E. injection E as E. apply (IH n); auto. lia.
Qed.

Lemma flip_byte_at_app_l (n i : nat) (a b : bytes) :
  n < length a -> flip_byte_at n i (a ++ b) = flip_byte_at n i a ++ b.
Proof.
  revert n. induction a as [|x a IH]; intros [|n]; simpl; try lia; auto.
  intros Hn. f_equal. apply IH. lia.
Qed.

Lemma flip_byte_at_app_r (n i : nat) (a b : bytes) :
  length a <= n ->
  flip_byte_at n i (a ++ b) = a ++ flip_byte_at (n - length a) i b.
Proof.
  revert n. induction a as [|x a IH]; intros n; simpl.
  - now rewrite Nat.sub_0_r.
  - destruct n as [|n]; [lia|]. intros Hn. simpl. f_equal. apply IH. lia.
Qed.

Lemma flipBitAt_length (i : nat) (s : bytes) :
  length (flipBitAt i s) = length s.
Proof. apply flip_byte_at_length. Qed.

Lemma bytes_eqb_eq (a b : bytes) : bytes_eqb a b = true <-> a = b.
Proof.
  unfold bytes_eqb. destruct (list_eq_dec Byte.byte_eq_dec a b); split;
    auto; discriminate.
Qed.

Lemma nat_of_byte_of_nat (n : nat) : n < 256 -> nat_of_byte (byte_of_nat n) = n.
Proof.
  intros Hn. unfold nat_of_byte, byte_of_nat.
  destruct (Byte.of_N (N.of_nat n)) as [b|] eqn:E.
  - apply Byte.to_of_N in E. rewrite E. apply Nat2N.id.
  - apply Byte.of_N_None_iff in E. lia.
Qed.

End ByteFacts.

(** ** The comparison, the block padding and the CBC chaining *)

Section CipherFacts.
Context {X : Externals}.

Lemma fold_or_zero (l : bytes) (acc : byte) :
  fold_left byte_or l acc = x00 <-> acc = x00 /\ Forall (fun d => d = x00) l.
Proof.
  revert acc. induction l as [|d l IH]; intros acc; simpl.
  - split; [intros ->; auto | tauto].
  - rewrite IH, byte_or_zero_iff. split.
    + intros [[-> ->] Hl]. auto.
    + intros [-> Hl]. inversion Hl; subst. auto.
Qed.

Lemma xor_bytes_zero (a b : bytes) :
  length a = length b ->
  Forall (fun d => d = x00) (xor_bytes a b) <-> a = b.
Proof.
  revert b. induction a as [|x a IH]; intros [|y b]; simpl; try discriminate.
  - intros _. split; auto.
  - intros E. injection E as E. split.
    + intros H. inversion H as [|? ? Hx Hl]; subst.
      apply (proj1 (byte_xor_zero_iff x y)) in Hx.
      apply (proj1 (IH b E)) in Hl. congruence.
    + intros H. injection H as -> ->. constructor.
      * now apply byte_xor_zero_iff.
      * now apply IH.
Qed.

(** The comparison decides equality of the two buffers. *)
Lemma constantTimeEqual_iff (a b : bytes) :
  constantTimeEqual a b = true <-> a = b.
Proof.
  unfold constantTimeEqual. rewrite andb_true_iff, Nat.eqb_eq. split.
  - intros [El Ef]. apply Byte.byte_dec_bl in Ef.
    apply (proj1 (fold_or_zero _ _)) in Ef. destruct Ef as [_ Ef].
    now apply (proj1 (xor_bytes_zero a b El)) in Ef.
  - intros ->. split; auto. apply Byte.byte_dec_lb.
    apply fold_or_zero. split; auto. now apply xor_bytes_zero.
Qed.

Lemma constantTimeEqual_refl (a : bytes) : constantTimeEqual a a = true.
Proof. now apply constantTimeEqual_iff. Qed.

Lemma constantTimeEqual_neq (a b : bytes) :
  a <> b -> constantTimeEqual a b = false.
Proof.
  intros H. destruct (constantTimeEqual a b) eqn:E; auto.
  apply constantTimeEqual_iff in E. contradiction.
Qed.

Lemma pkcs7Pad_length (p : bytes) :
  length (pkcs7Pad p) = BLOCK_LENGTH * S (length p / BLOCK_LENGTH).
Proof.
  unfold pkcs7Pad, BLOCK_LENGTH. rewrite length_app, repeat_length.
  pose proof (Nat.div_mod_eq (length p) 16).
  pose proof (Nat.mod_upper_bound (length p) 16). lia.
Qed.

Lemma last_app_repeat (p : bytes) (b : byte) (n : nat) :
  0 < n -> last (p ++ repeat b n) x00 = b.
Proof.
  intros Hn. destruct n as [|n]; [lia|].
  replace (repeat b (S n)) with (repeat b n ++ [b]).
  - rewrite app_assoc. apply last_last.
  - change [b] with (repeat b 1). rewrite <- repeat_app. f_equal. lia.
Qed.

Lemma pkcs7Unpad_pad (p : bytes) : pkcs7Unpad (pkcs7Pad p) = Ok p.
Proof.
  unfold pkcs7Unpad, pkcs7Pad.
  set (n := BLOCK_LENGTH - length p mod BLOCK_LENGTH).
  assert (Hn : 1 <= n <= BLOCK_LENGTH).
  { unfold n, BLOCK_LENGTH.
    pose proof (Nat.mod_upper_bound (length p) 16). lia. }
  rewrite last_app_repeat by lia.
  rewrite nat_of_byte_of_nat by (unfold BLOCK_LENGTH in Hn; lia).
  rewrite length_app, repeat_length.
  replace (length p + n - n) with (length p) by lia.
  rewrite skipn_app, skipn_all, Nat.sub_diag, firstn_app, firstn_all,
    Nat.sub_diag. cbn [firstn skipn app]. rewrite app_nil_r.
  replace (bytes_eqb _ _) with true by (symmetry; now apply bytes_eqb_eq).
  destruct Hn as [H1 H2].
  apply Nat.leb_le in H1, H2. rewrite H1, H2.
  replace (n <=? length p + n) with true by (symmetry; apply Nat.leb_le; lia).
  reflexivity.
Qed.

Lemma firstn_app_exact {A : Type} (n : nat) (a b : list A) :
  length a = n -> firstn n (a ++ b) = a.
Proof.
  intros <-. now rewrite firstn_app, firstn_all, Nat.sub_diag, app_nil_r.
Qed.

Lemma skipn_app_exact {A : Type} (n : nat) (a b : list A) :
  length a = n -> skipn n (a ++ b) = b.
Proof. intros <-. now rewrite skipn_app, skipn_all, Nat.sub_diag. Qed.

Lemma cbcEncryptBlocks_length (Haes : AesBlockInverse X)
    (n : nat) (key prev p : bytes) :
  length prev = BLOCK_LENGTH -> length p = BLOCK_LENGTH * n ->
  length (cbcEncryptBlocks n key prev p) = BLOCK_LENGTH * n.
Proof.
  revert prev p. induction n as [|n IH]; intros prev p Hprev Hp.
  - simpl. lia.
  - cbn [cbcEncryptBlocks].
    assert (Hb : length (xor_bytes (firstn BLOCK_LENGTH p) prev) = BLOCK_LENGTH).
    { rewrite xor_bytes_length, length_firstn. lia. }
    destruct (Haes key _ Hb) as [Hc _].
    rewrite length_app, Hc, IH; auto.
    + lia.
    + rewrite length_skipn. lia.
Qed.

Lemma cbcDecrypt_encrypt_blocks (Haes : AesBlockInverse X)
    (n : nat) (key prev p : bytes) :
  length prev = BLOCK_LENGTH -> length p = BLOCK_LENGTH * n ->
  cbcDecryptBlocks n key prev (cbcEncryptBlocks n key prev p) = p.
Proof.
  revert prev p. induction n as [|n IH]; intros prev p Hprev Hp.
  - simpl. destruct p; auto. simpl in Hp. lia.
  - cbn [cbcEncryptBlocks cbcDecryptBlocks].
    assert (Hf : length (firstn BLOCK_LENGTH p) = BLOCK_LENGTH).
    { rewrite length_firstn. lia. }
    assert (Hb : length (xor_bytes (firstn BLOCK_LENGTH p) prev) = BLOCK_LENGTH).
    { rewrite xor_bytes_length. lia. }
    destruct (Haes key _ Hb) as [Hc Hd].
    set (c := aesEncryptBlock key (xor_bytes (firstn BLOCK_LENGTH p) prev)) in *.
    rewrite (firstn_app_exact _ _ _ Hc), (skipn_app_exact _ _ _ Hc).
    rewrite Hd, xor_bytes_involutive by lia.
    rewrite IH; auto.
    + apply firstn_skipn.
    + rewrite length_skipn. lia.
Qed.

(** Decryption undoes encryption under the same key and IV. *)
Lemma cbcDecrypt_cbcEncrypt (Haes : AesBlockInverse X) (key iv p : bytes) :
  length iv = IV_LENGTH -> cbcDecrypt key iv (cbcEncrypt key iv p) = Ok p.
Proof.
  intros Hiv. unfold cbcDecrypt, cbcEncrypt.
  pose proof (pkcs7Pad_length p) as Hl.
  assert (Hd : length (pkcs7Pad p) / BLOCK_LENGTH = S (length p / BLOCK_LENGTH)).
  { rewrite Hl, Nat.mul_comm. apply Nat.div_mul. discriminate. }
  rewrite Hd.
  assert (Hc : length (cbcEncryptBlocks (S (length p / BLOCK_LENGTH)) key iv
                         (pkcs7Pad p))
               = BLOCK_LENGTH * S (length p / BLOCK_LENGTH))
    by (apply cbcEncryptBlocks_length; auto).
  rewrite Hc.
  replace (BLOCK_LENGTH * S (length p / BLOCK_LENGTH) mod BLOCK_LENGTH =? 0)
    with true
    by (symmetry; apply Nat.eqb_eq; rewrite Nat.mul_comm;
        apply Nat.Div0.mod_mul).
  replace (1 <=? BLOCK_LENGTH * S (length p / BLOCK_LENGTH)) with true
    by (symmetry; apply Nat.leb_le; unfold BLOCK_LENGTH; lia).
  cbn [andb].
  replace (BLOCK_LENGTH * S (length p / BLOCK_LENGTH) / BLOCK_LENGTH)
    with (S (length p / BLOCK_LENGTH))
    by (rewrite Nat.mul_comm, Nat.div_mul; auto; discriminate).
  rewrite cbcDecrypt_encrypt_blocks; auto.
  apply pkcs7Unpad_pad.
Qed.

(** Under one key and one plaintext, the ciphertext determines the IV. *)
Lemma cbcEncrypt_iv_inj (Haes : AesBlockInverse X) (key iv1 iv2 p : bytes) :
  length iv1 = IV_LENGTH -> length iv2 = IV_LENGTH ->
  cbcEncrypt key iv1 p = cbcEncrypt key iv2 p -> iv1 = iv2.
Proof.
  intros H1 H2. unfold cbcEncrypt.
  pose proof (pkcs7Pad_length p) as Hl.
  assert (Hd : length (pkcs7Pad p) / BLOCK_LENGTH = S (length p / BLOCK_LENGTH)).
  { rewrite Hl, Nat.mul_comm. apply Nat.div_mul. discriminate. }
  rewrite Hd. cbn [cbcEncryptBlocks].
  set (b := firstn BLOCK_LENGTH (pkcs7Pad p)).
  assert (Hb : length b = BLOCK_LENGTH).
  { unfold b. rewrite length_firstn, Hl. unfold BLOCK_LENGTH. lia. }
  assert (Hx1 : length (xor_bytes b iv1) = BLOCK_LENGTH)
    by (rewrite xor_bytes_length; unfold IV_LENGTH, BLOCK_LENGTH in *; lia).
  assert (Hx2 : length (xor_bytes b iv2) = BLOCK_LENGTH)
    by (rewrite xor_bytes_length; unfold IV_LENGTH, BLOCK_LENGTH in *; lia).
  destruct (Haes key _ Hx1) as [Hc1 Hd1].
  destruct (Haes key _ Hx2) as [Hc2 Hd2].
  intros E.
  apply (f_equal (firstn BLOCK_LENGTH)) in E.
  rewrite (firstn_app_exact _ _ _ Hc1), (firstn_app_exact _ _ _ Hc2) in E.
  apply (f_equal (aesDecryptBlock key)) in E. rewrite Hd1, Hd2 in E.
  apply xor_bytes_cancel_l in E; auto;
    unfold IV_LENGTH, BLOCK_LENGTH in *; lia.
Qed.

End CipherFacts.

(** ** The interpreter *)

Section InterpreterFacts.
Lemma run_bind {A B : Type} (m : Async A) (f : A -> Async B) (env : Env) (w : World) :
  run (bind m f) env w
  = match run m env w with
    | (Ok a, w') => run (f a) env w'
    | (Err e, w') => (Err e, w')
    end.
Proof.
  revert w. induction m as [a|e|T op k IH|T p o k IH]; intros w; simpl; auto.
  - destruct (handle env op w) as [x w']. apply IH.
  - destruct (settle env p o w) as [r w']. apply IH.
Qed.

Lemma run_tryFinally {A : Type} (m : Async A) (fin : Async unit) (env : Env) (w : World) :
  run (tryFinally m fin) env w
  = let (r, w') := run m env w in
    match run fin env w' with
    | (Ok _, w'') => (r, w'')
    | (Err e, w'') => (Err e, w'')
    end.
Proof.
  revert w. induction m as [a|e|T op k IH|T p o k IH]; intros w; simpl.
  - rewrite run_bind. destruct (run fin env w) as [[u|e] w']; reflexivity.
  - rewrite run_bind. destruct (run fin env w) as [[u|e'] w']; reflexivity.
  - destruct (handle env op w) as [x w']. apply IH.
  - destruct (settle env p o w) as [r w']. apply IH.
Qed.

Lemma run_tryCatch {A : Type} (m : Async A) (h : Error -> Async A) (env : Env) (w : World) :
  run (tryCatch m h) env w
  = match run m env w with
    | (Ok a, w') => (Ok a, w')
    | (Err e, w') => run (h e) env w'
    end.
Proof.
  revert w. induction m as [a|e|T op k IH|T p o k IH]; intros w; simpl; auto.
  - destruct (handle env op w) as [x w']. apply IH.
  - destruct (settle env p o w) as [r w']. apply IH.
Qed.

(** Running a method is running what is left of it after its synchronous
    part, and after each resumption. *)
Lemma run_advance {A : Type} (m : Async A) (env : Env) (w : World) :
  run m env w = run (fst (advance m env w)) env (snd (advance m env w)).
Proof.
  revert w. induction m as [a|e|T op k IH|T p o k IH]; intros w; simpl; auto.
  destruct (handle env op w) as [x w']. apply IH.
Qed.

End InterpreterFacts.

(** ** The flag discipline *)

Section FlagFacts.

Lemma handle_flag {T : Type} (env : Env) (op : Op T) (w : World) :
  touchesFlag op = false -> isRunning (snd (handle env op w)) = isRunning w.
Proof. destruct op; simpl; auto; discriminate. Qed.

Lemma settle_flag {T : Type} (env : Env) (p : PipelineId)
    (o : result (T * list Event)) (w : World) :
  isRunning (snd (settle env p o w)) = isRunning w.
Proof. destruct o as [[x evs]|e]; reflexivity. Qed.

Lemma AwaitFree_Held {A : Type} (m : Async A) : AwaitFree m -> Held m.
Proof.
  induction m as [a|e|T op k IH|T p o k IH]; simpl; auto.
  - intros Hk. destruct (touchesFlag op); auto.
  - contradiction.
Qed.

Lemma AwaitFree_bind {A B : Type} (m : Async A) (f : A -> Async B) :
  AwaitFree m -> (forall a, AwaitFree (f a)) -> AwaitFree (bind m f).
Proof.
  intros Hm Hf. induction m as [a|e|T op k IH|T p o k IH]; simpl in *; auto.
Qed.

(** In [try { body } finally { fin }], when only [fin] writes the flag and
    [fin] never suspends, every suspension precedes the write. *)
Lemma tryFinally_held {A : Type} (body : Async A) (fin : Async unit) :
  FlagFree body -> AwaitFree fin -> Held (tryFinally body fin).
Proof.
  intros Hb Hf.
  induction body as [a|e|T op k IH|T p o k IH]; simpl in *.
  - apply AwaitFree_Held, AwaitFree_bind; simpl; auto.
  - apply AwaitFree_Held, AwaitFree_bind; simpl; auto.
  - destruct Hb as [Hop Hk]. rewrite Hop. intros x. apply IH, Hk.
  - intros r. apply IH, Hb.
Qed.

Lemma tryCatch_flagFree {A : Type} (body : Async A) (h : Error -> Async A) :
  FlagFree body -> (forall e, FlagFree (h e)) -> FlagFree (tryCatch body h).
Proof.
  intros Hb Hh.
  induction body as [a|e|T op k IH|T p o k IH]; simpl in *; auto.
  destruct Hb as [Hop Hk]. split; auto.
Qed.

Lemma bind_flagFree {A B : Type} (m : Async A) (f : A -> Async B) :
  FlagFree m -> (forall a, FlagFree (f a)) -> FlagFree (bind m f).
Proof.
  intros Hm Hf.
  induction m as [a|e|T op k IH|T p o k IH]; simpl in *; auto.
  destruct Hm as [Hop Hk]. split; auto.
Qed.

(** A held method that never suspended keeps the flag it was entered with
    until it suspends; suspended, it is still held. *)
Lemma advance_held {A : Type} (env : Env) (m : Async A) (w : World) :
  Held m -> suspended (fst (advance m env w)) = true ->
  isRunning (snd (advance m env w)) = isRunning w
  /\ Held (fst (advance m env w)).
Proof.
  revert w. induction m as [a|e|T op k IH|T p o k IH]; intros w; simpl;
    try discriminate.
  - intros Hm. destruct (handle env op w) as [x w'] eqn:Eh.
    destruct (touchesFlag op) eqn:Eop.
    + intros Hs. exfalso. specialize (Hm x). clear -Hm Hs.
      revert w' Hs. induction (k x) as [a|e|T' op' k' IH'|T' p' o' k' IH'];
        intros w'; simpl in *; try discriminate; try contradiction.
      destruct (handle env op' w') as [y w'']. apply IH'. apply Hm.
    + intros Hs. destruct (IH x w' (Hm x) Hs) as [Hr Hh]. split; auto.
      rewrite Hr. pose proof (handle_flag env op w Eop) as Hf.
      now rewrite Eh in Hf.
  - auto.
Qed.

Lemma resume_held {A : Type} (env : Env) (m : Async A) (w : World) :
  Held m -> suspended m = true -> suspended (fst (resume m env w)) = true ->
  isRunning (snd (resume m env w)) = isRunning w
  /\ Held (fst (resume m env w)).
Proof.
  destruct m as [a|e|T op k|T p o k]; simpl; try discriminate.
  intros Hm _. destruct (settle env p o w) as [r w'] eqn:Es. intros Hs.
  destruct (advance_held env (k r) w' (Hm r) Hs) as [Hr Hh]. split; auto.
  rewrite Hr. pose proof (settle_flag env p o w) as Hf. now rewrite Es in Hf.
Qed.

Lemma awaitFree_not_suspended {A : Type} (env : Env) (m : Async A) (w : World) :
  AwaitFree m -> suspended (fst (advance m env w)) = false.
Proof.
  revert w. induction m as [a|e|T op k IH|T p o k IH]; intros w; simpl; auto.
  - intros Hk. destruct (handle env op w) as [x w']. apply IH, Hk.
  - contradiction.
Qed.

Lemma advance_raised {A : Type} (env : Env) (m : Async A) (w : World) :
  Raised m -> suspended (fst (advance m env w)) = true ->
  isRunning (snd (advance m env w)) = true /\ Held (fst (advance m env w)).
Proof.
  revert w. induction m as [a|e|T op k IH|T p o k IH]; intros w; simpl;
    try discriminate; try contradiction.
  intros Hm Hs. destruct (flagWritten op) as [[|]|] eqn:Eop.
  - destruct op; try discriminate Eop. injection Eop as ->. simpl in *.
    destruct (advance_held env (k tt) (setIsRunning true w) (Hm tt) Hs)
      as [Hr Hh]. split; auto.
  - destruct (handle env op w) as [x w'].
    rewrite (awaitFree_not_suspended env (k x) w' (Hm x)) in Hs. discriminate.
  - destruct (handle env op w) as [x w']. apply IH; auto.
Qed.

End FlagFacts.

(** ** Running the two methods *)

Section ServiceFacts.
Context {X : Externals}.

#[local] Arguments getMacAndUpdateHmac : simpl never.
#[local] Arguments getIvAndDecipher : simpl never.
#[local] Arguments constantTimeEqual : simpl never.
#[local] Arguments hmacDigest : simpl never.
#[local] Arguments String.append : simpl never.
#[local] Arguments cbcEncrypt : simpl never.
#[local] Arguments createCipheriv : simpl never.

Lemma emit_emit (a b : list Event) (w : World) :
  emit b (emit a w) = emit (a ++ b) w.
Proof. unfold emit. simpl. now rewrite app_assoc. Qed.

Lemma emit_setIsRunning (b : bool) (evs : list Event) (w : World) :
  emit evs (setIsRunning b w) = setIsRunning b (emit evs w).
Proof. reflexivity. Qed.

Lemma setIsRunning_twice (a b : bool) (w : World) :
  setIsRunning a (setIsRunning b w) = setIsRunning a w.
Proof. reflexivity. Qed.

Ltac worlds :=
  repeat (rewrite ?emit_setIsRunning, ?setIsRunning_twice, ?emit_emit);
  unfold settled; repeat (cbn [app]; rewrite <- ?app_assoc); try reflexivity.

(** A call of [exportBackup] on an idle service settles as [exportOutcome]
    says and leaves the flag cleared. *)
Lemma run_exportBackup (env : Env) (sink : Writable) (w : World) :
  isRunning w = false ->
  run (exportBackup sink) env w
  = (fst (exportOutcome env sink), settled (snd (exportOutcome env sink)) w).
Proof.
  intros Hidle. unfold exportBackup, exportOutcome. cbn. rewrite Hidle. cbn.
  destruct (getKeyMaterial env) as [km|e]; cbn; [|f_equal; worlds].
  destruct (createCipheriv AES256CBC (aesKey km) (randomBytes env IV_LENGTH))
    as [cipher|e]; cbn; [|f_equal; worlds].
  destruct (backupExportStream env |> _ |> _ |> _ |> _ |> _ |> _)
    as [[[] evs]|e]; cbn; f_equal; worlds.
Qed.

(** A call of [importBackup] on an idle service settles as [importOutcome]
    says and leaves the flag cleared. *)
Lemma run_importBackup (env : Env) (f : Factory) (w : World) :
  isRunning w = false ->
  run (importBackup f) env w
  = (fst (importOutcome env f), settled (snd (importOutcome env f)) w).
Proof.
  intros Hidle. unfold importBackup, importOutcome, importFailed, secondPass.
  cbn. rewrite Hidle. cbn.
  destruct (getKeyMaterial env) as [km|e]; cbn; [|f_equal; worlds].
  destruct (f 0) as [s1|e]; cbn; [|f_equal; worlds].
  destruct (getMacAndUpdateHmac _ _ None s1) as [[hmac1 [theirMac|]] out1];
    cbn; [|f_equal; worlds].
  destruct (constantTimeEqual (hmacDigest hmac1) theirMac); cbn;
    [|f_equal; worlds].
  destruct (f 1 |> _ |> _ |> _ |> _ |> _) as [[[hmac2 []] evs]|e]; cbn;
    [|f_equal; worlds].
  destruct (constantTimeEqual (hmacDigest hmac2) theirMac); cbn;
    f_equal; worlds.
Qed.

(** With key material and a cipher made, a call of [exportBackup] on an
    idle service reaches its pipeline: it is suspended there, having logged
    its start and raised the flag. *)
Lemma advance_exportBackup_suspends (env : Env) (sink : Writable) (w : World)
    (km : KeyMaterial) (cipher : Transform) :
  isRunning w = false ->
  getKeyMaterial env = Ok km ->
  createCipheriv AES256CBC (aesKey km) (randomBytes env IV_LENGTH) = Ok cipher ->
  suspended (fst (advance (exportBackup sink) env w)) = true
  /\ snd (advance (exportBackup sink) env w)
     = setIsRunning true (emit [EvLog "exportBackup: starting..."] w).
Proof.
  intros Hidle Hk Hc. unfold exportBackup. cbn. rewrite Hidle. cbn.
  rewrite Hk. cbn. rewrite Hc. cbn. split; reflexivity.
Qed.

(** With key material, a call of [importBackup] on an idle service reaches
    its first pipeline: it is suspended there, having logged its start and
    raised the flag. *)
Lemma advance_importBackup_suspends (env : Env) (f : Factory) (w : World)
    (km : KeyMaterial) :
  isRunning w = false ->
  getKeyMaterial env = Ok km ->
  suspended (fst (advance (importBackup f) env w)) = true
  /\ snd (advance (importBackup f) env w)
     = setIsRunning true (emit [EvLog "importBackup: starting..."] w).
Proof.
  intros Hidle Hk. unfold importBackup. cbn. rewrite Hidle. cbn.
  rewrite Hk. cbn. split; reflexivity.
Qed.

#[local] Arguments tryFinally : simpl never.
#[local] Arguments tryCatch : simpl never.

Lemma unwrap_flagFree {T : Type} (r : result T) : FlagFree (unwrap r).
Proof. destruct r; exact I. Qed.

Lemma strictAssert_flagFree (c : bool) (m : string) : FlagFree (strictAssert c m).
Proof. destruct c; exact I. Qed.

Lemma exportBackup_raised (sink : Writable) : Raised (exportBackup sink).
Proof.
  unfold exportBackup. cbn. intros [|]; cbn; [exact I|].
  intros _ _. apply tryFinally_held.
  - cbn. split; [reflexivity|]. intros [km|e]; cbn; [|exact I].
    split; [reflexivity|]. intros recordStream.
    split; [reflexivity|]. intros iv.
    destruct (createCipheriv AES256CBC (aesKey km) iv) as [cipher|e]; cbn;
      [|exact I].
    intros r. apply unwrap_flagFree.
  - cbn. auto.
Qed.

Lemma importBackup_raised (f : Factory) : Raised (importBackup f).
Proof.
  unfold importBackup. cbn. intros [|]; cbn; [exact I|].
  intros _ _. apply tryFinally_held.
  - apply tryCatch_flagFree.
    + cbn. split; [reflexivity|]. intros [km|e]; cbn; [|exact I].
      intros [[hmac1 [theirMac|]]|e]; cbn; try exact I.
      apply bind_flagFree; [apply strictAssert_flagFree|]. intros _.
      cbn. split; [reflexivity|]. intros recordSink r.
      apply bind_flagFree; [apply unwrap_flagFree|]. intros [hmac2 []].
      apply bind_flagFree; [apply strictAssert_flagFree|]. intros _.
      cbn. auto.
    + intros e. cbn. auto.
  - cbn. auto.
Qed.

Lemma invoke_raised (o : Operation) : Raised (invoke o).
Proof.
  destruct o; [apply exportBackup_raised | apply importBackup_raised].
Qed.

(** While [exportBackup] or [importBackup] is in flight, [isRunning] is
    true. *)
Lemma operation_inflight (env : Env) (o : Operation) (w0 : World)
    (t : Async unit) (w : World) :
  InFlight env (invoke o) w0 t w -> isRunning w = true /\ Held t.
Proof.
  intros Hin. remember (invoke o) as m eqn:Em.
  induction Hin as [m w t w' Ea Hs|m w t w' t' w'' Hin IH Er Hs]; subst m.
  - pose proof (advance_raised env (invoke o) w (invoke_raised o)) as H.
    rewrite Ea in H. simpl in H. auto.
  - destruct (IH eq_refl) as [Hr Hh].
    assert (Hst : suspended t = true) by (inversion Hin; auto).
    pose proof (resume_held env t w' Hh Hst) as H. rewrite Er in H. simpl in H.
    destruct (H Hs) as [Hr' Hh']. split; auto. congruence.
Qed.

(** A call made while the flag is set settles at once, rejected, in an
    unchanged world. *)
Lemma advance_busy (env : Env) (o : Operation) (w : World) :
  isRunning w = true ->
  advance (invoke o) env w
  = (Throw (AssertionError "BackupService is already running"), w).
Proof.
  intros Hbusy. destruct o; cbn; rewrite Hbusy; reflexivity.
Qed.

End ServiceFacts.

(** ** The stages on an envelope *)

Section StageFacts.
Context {X : Externals}.

Lemma envelope_parts (s : bytes) :
  MAC_LENGTH <= length s ->
  s = envelopePayload s ++ envelopeMac s
  /\ length (envelopeMac s) = MAC_LENGTH
  /\ length (envelopePayload s) = length s - MAC_LENGTH.
Proof.
  intros Hl. unfold envelopePayload, envelopeMac. repeat split.
  - symmetry. apply firstn_skipn.
  - rewrite length_skipn. lia.
  - rewrite length_firstn. lia.
Qed.

Lemma envelope_of_parts (payload tag : bytes) :
  length tag = MAC_LENGTH ->
  envelopePayload (payload ++ tag) = payload
  /\ envelopeMac (payload ++ tag) = tag.
Proof.
  intros Ht. unfold envelopePayload, envelopeMac.
  rewrite length_app, Ht, Nat.add_sub. split.
  - now apply firstn_app_exact.
  - now apply skipn_app_exact.
Qed.

(** The MAC-extraction stage on a stream that holds a whole tag... *)
Lemma getMacAndUpdateHmac_long {V : Type} (hmac : Hmac)
    (onTheirMac : bytes -> V -> V) (v : V) (s : bytes) :
  MAC_LENGTH <= length s ->
  getMacAndUpdateHmac hmac onTheirMac v s
  = (hmacUpdate hmac (envelopePayload s), onTheirMac (envelopeMac s) v,
     envelopePayload s).
Proof.
  intros Hl. unfold getMacAndUpdateHmac.
  apply Nat.leb_le in Hl. now rewrite Hl.
Qed.

(** ... and on one that ends before a tag was observed. *)
Lemma getMacAndUpdateHmac_short {V : Type} (hmac : Hmac)
    (onTheirMac : bytes -> V -> V) (v : V) (s : bytes) :
  length s < MAC_LENGTH ->
  getMacAndUpdateHmac hmac onTheirMac v s = (hmac, v, []).
Proof.
  intros Hl. unfold getMacAndUpdateHmac.
  apply Nat.leb_gt in Hl. now rewrite Hl.
Qed.

Lemma hmacDigest_fresh (key chunk : bytes) :
  hmacDigest (hmacUpdate (createHmac size256 key) chunk) = hmacSha256 key chunk.
Proof. reflexivity. Qed.

Lemma getIvAndDecipher_short (key s : bytes) :
  length s < IV_LENGTH ->
  getIvAndDecipher key s
  = Err (CipherError "getIvAndDecipher: stream ended before the IV").
Proof.
  intros Hl. unfold getIvAndDecipher. apply Nat.leb_gt in Hl. now rewrite Hl.
Qed.

Lemma getIvAndDecipher_encrypted (Haes : AesBlockInverse X) (key iv p : bytes) :
  length iv = IV_LENGTH ->
  getIvAndDecipher key (iv ++ cbcEncrypt key iv p) = Ok p.
Proof.
  intros Hiv. unfold getIvAndDecipher.
  replace (IV_LENGTH <=? length (iv ++ cbcEncrypt key iv p)) with true
    by (symmetry; apply Nat.leb_le; rewrite length_app; lia).
  rewrite (firstn_app_exact _ _ _ Hiv), (skipn_app_exact _ _ _ Hiv).
  now apply cbcDecrypt_cbcEncrypt.
Qed.

(** The envelope of the wire format, as an importer delimits it. *)
Lemma EncryptedBackupEnvelope_parts (Htag : HmacTagLength X)
    (km : KeyMaterial) (iv rs : bytes) :
  length iv = IV_LENGTH ->
  let e := EncryptedBackupEnvelope km iv rs in
  MAC_LENGTH <= length e
  /\ envelopePayload e = iv ++ specCiphertext km iv rs
  /\ envelopeMac e = hmacSha256 (macKey km) (iv ++ specCiphertext km iv rs)
  /\ envelopeIv e = iv
  /\ envelopeCiphertext e = specCiphertext km iv rs.
Proof.
  intros Hiv e. unfold e, EncryptedBackupEnvelope, specMac.
  rewrite app_assoc.
  destruct (envelope_of_parts (iv ++ specCiphertext km iv rs)
              (hmacSha256 (macKey km) (iv ++ specCiphertext km iv rs))
              (Htag _ _)) as [Hp Ht].
  repeat split; auto.
  - rewrite length_app, (Htag _ _). lia.
  - unfold envelopeIv. rewrite <- app_assoc. now apply firstn_app_exact.
  - unfold envelopeCiphertext. rewrite Hp. now apply skipn_app_exact.
Qed.

End StageFacts.

(** ** Export and import of one envelope *)

Section EnvelopeFacts.
Context {X : Externals}.

#[local] Arguments cbcEncrypt : simpl never.
#[local] Arguments hmacSha256 : simpl never.

Lemma createCipheriv_ok (key iv : bytes) :
  length key = AES256_KEY_LENGTH -> length iv = IV_LENGTH ->
  createCipheriv AES256CBC key iv = Ok (fun p => Ok (cbcEncrypt key iv p)).
Proof.
  intros Hk Hiv. unfold createCipheriv.
  apply Nat.eqb_eq in Hk, Hiv. now rewrite Hk, Hiv.
Qed.

Lemma createCipheriv_bad_key (key iv : bytes) :
  length key <> AES256_KEY_LENGTH -> length iv = IV_LENGTH ->
  createCipheriv AES256CBC key iv = Err (CipherError "Invalid key length").
Proof.
  intros Hk Hiv. unfold createCipheriv.
  apply Nat.eqb_neq in Hk. apply Nat.eqb_eq in Hiv. now rewrite Hk, Hiv.
Qed.

(** The export pipeline on a record stream, once its stages are made. *)
Lemma export_stages_envelope (km : KeyMaterial) (iv rs : bytes)
    (sink : Writable) :
  Ok rs |> createGzip |> appendPaddingStream
    |> (fun p => Ok (cbcEncrypt (aesKey km) iv p))
    |> prependStream iv |> appendMacStream (macKey km) |> writeTo sink
  = writeTo sink (EncryptedBackupEnvelope km iv rs).
Proof.
  cbn [pipe createGzip appendPaddingStream prependStream appendMacStream].
  rewrite hmacDigest_fresh.
  unfold EncryptedBackupEnvelope, specMac, specCiphertext, specPad.
  now rewrite app_assoc.
Qed.

Lemma exportOutcome_envelope (env : Env) (sink : Writable)
    (km : KeyMaterial) (rs : bytes) :
  getKeyMaterial env = Ok km ->
  length (aesKey km) = AES256_KEY_LENGTH ->
  length (randomBytes env IV_LENGTH) = IV_LENGTH ->
  backupExportStream env = Ok rs ->
  sink (EncryptedBackupEnvelope km (randomBytes env IV_LENGTH) rs) = Ok tt ->
  exportOutcome env sink
  = (Ok tt,
     [EvLog "exportBackup: starting..."; EvPipelineStart ExportPipeline;
      EvWrite (EncryptedBackupEnvelope km (randomBytes env IV_LENGTH) rs);
      EvLog "exportBackup: finished..."]).
Proof.
  intros Hk Hkey Hiv Hrs Hsink. unfold exportOutcome.
  rewrite Hk, (createCipheriv_ok _ _ Hkey Hiv), Hrs.
  rewrite export_stages_envelope. unfold writeTo. rewrite Hsink.
  reflexivity.
Qed.

Lemma importOutcome_envelope (Htag : HmacTagLength X) (Haes : AesBlockInverse X)
    (env : Env) (km : KeyMaterial) (iv rs : bytes) (R : list bytes) :
  getKeyMaterial env = Ok km ->
  length iv = IV_LENGTH ->
  gunzip (specPad (gzip rs)) = Ok rs ->
  delimitedFrames rs = Ok R ->
  backupImportStream env R = Ok tt ->
  importOutcome env (fun _ => Ok (EncryptedBackupEnvelope km iv rs))
  = (Ok tt,
     [EvLog "importBackup: starting..."; EvPipelineStart ImportPass1;
      EvDiscard (iv ++ specCiphertext km iv rs);
      EvPipelineStart ImportPass2; EvRecords R;
      EvLog "importBackup: finished..."]).
Proof.
  intros Hk Hiv Hz Hfr Hsink.
  destruct (EncryptedBackupEnvelope_parts Htag km iv rs Hiv)
    as (Hl & Hp & Ht & _ & _).
  unfold importOutcome, secondPass. rewrite Hk.
  cbn [pipe]. rewrite !getMacAndUpdateHmac_long by assumption.
  cbn [fst snd]. rewrite hmacDigest_fresh, Hp, Ht.
  rewrite constantTimeEqual_refl.
  unfold through, deliverTo, createGunzip, DelimitedStream, specCiphertext.
  cbn [fst snd pipe].
  rewrite getIvAndDecipher_encrypted by assumption. cbn [fst snd pipe].
  rewrite Hz. cbn [fst snd pipe]. rewrite Hfr. cbn [fst snd pipe].
  rewrite Hsink. cbn [fst snd pipe].
  rewrite hmacDigest_fresh, constantTimeEqual_refl.
  reflexivity.
Qed.

End EnvelopeFacts.

(** ** The executable instance satisfies the assumptions *)

Section ToyFacts.

Lemma toy_pad_to_length (n : nat) (s : bytes) : length (Toy.pad_to n s) = n.
Proof.
  unfold Toy.pad_to. rewrite length_firstn, length_app, repeat_length. lia.
Qed.

Lemma toy_hmac_tag_length : HmacTagLength Toy.externals.
Proof. intros key m. apply toy_pad_to_length. Qed.

Lemma toy_aes_block_inverse : AesBlockInverse Toy.externals.
Proof.
  intros key b Hb. simpl. unfold Toy.aesBlock.
  pose proof (toy_pad_to_length BLOCK_LENGTH key) as Hk. split.
  - rewrite xor_bytes_length. lia.
  - apply xor_bytes_involutive. congruence.
Qed.

End ToyFacts.

(* ================================================================== *)
(** * The concurrency guard *)

Section Guard.
Context {X : Externals}.

(** C4. A call of [exportBackup] or [importBackup] made while another
    export or import is in flight on the same service settles within its
    synchronous part with the busy assertion error: the world is left exactly
    as it was (no pipeline started, no bytes written, no log line, flag not
    touched), and resuming the operation in flight afterwards behaves as if
    the rejected call had never been made. *)
Theorem busy_call_rejected_without_effects
    (env : Env) (first second : Operation) (w0 : World)
    (inflight : Async unit) (w : World) :
  InFlight env (invoke first) w0 inflight w ->
  advance (invoke second) env w
    = (Throw (AssertionError "BackupService is already running"), w)
  /\ run (invoke second) env w
    = (Err (AssertionError "BackupService is already running"), w)
  /\ errorKind (AssertionError "BackupService is already running") = Busy
  /\ resume inflight env (snd (run (invoke second) env w))
    = resume inflight env w.
Proof.
  intros Hin. destruct (operation_inflight env first w0 inflight w Hin) as [Hr _].
  pose proof (advance_busy env second w Hr) as Ha.
  assert (Hrun : run (invoke second) env w
                 = (Err (AssertionError "BackupService is already running"), w)).
  { rewrite run_advance, Ha. reflexivity. }
  repeat split; auto. now rewrite Hrun.
Qed.

(** C5. A call of [exportBackup] or [importBackup] on an idle service holds
    [isRunning = true] at every point where it is suspended on a pipeline,
    and there is such a point: once the key provider has returned key
    material (for an export, with a 32-byte cipher key and a 16-byte IV, so
    that the cipher is made), the synchronous part of the call ends
    suspended on its first pipeline, with the start logged and the flag
    raised.  Whatever the key provider, the streams, the sinks and the MAC
    checks do, [isRunning] is false again once the call has settled. *)
Theorem running_flag_raised_then_cleared
    (env : Env) (o : Operation) (w : World) :
  isRunning w = false ->
  (forall t w', InFlight env (invoke o) w t w' -> isRunning w' = true)
  /\ (forall km,
        getKeyMaterial env = Ok km ->
        match o with
        | CallExport _ =>
            length (aesKey km) = AES256_KEY_LENGTH
            /\ length (randomBytes env IV_LENGTH) = IV_LENGTH
        | CallImport _ => True
        end ->
        exists t w',
          advance (invoke o) env w = (t, w')
          /\ suspended t = true
          /\ InFlight env (invoke o) w t w'
          /\ isRunning w' = true
          /\ trace w'
             = trace w
                 ++ [EvLog match o with
                           | CallExport _ => "exportBackup: starting..."
                           | CallImport _ => "importBackup: starting..."
                           end])
  /\ isRunning (snd (run (invoke o) env w)) = false.
Proof.
  intros Hidle. split; [|split].
  - intros t w' Hin. now destruct (operation_inflight env o w t w' Hin).
  - intros km Hk Hlen.
    assert (H : suspended (fst (advance (invoke o) env w)) = true
                /\ snd (advance (invoke o) env w)
                   = setIsRunning true
                       (emit [EvLog match o with
                                    | CallExport _ => "exportBackup: starting..."
                                    | CallImport _ => "importBackup: starting..."
                                    end] w)).
    { destruct o as [sink|f]; cbn [invoke].
      - destruct Hlen as [Hkey Hiv].
        exact (advance_exportBackup_suspends env sink w km _ Hidle Hk
                 (createCipheriv_ok _ _ Hkey Hiv)).
      - exact (advance_importBackup_suspends env f w km Hidle Hk). }
    destruct (advance (invoke o) env w) as [t w'] eqn:Ha.
    cbn [fst snd] in H. destruct H as [Hs Hw].
    exists t, w'. split; [reflexivity|]. split; [exact Hs|].
    split; [now apply InFlight_first|]. subst w'. split; reflexivity.
  - destruct o as [sink|f]; simpl invoke.
    + now rewrite run_exportBackup.
    + now rewrite run_importBackup.
Qed.

End Guard.

Lemma busy_call_rejected_witness :
  run (invoke (X := Toy.externals) (CallImport (Toy.replay Toy.envelope1)))
      (Toy.env Toy.iv1)
      (snd (advance (invoke (X := Toy.externals) (CallExport Toy.acceptBytes))
              (Toy.env Toy.iv1) idle))
  = (Err (AssertionError "BackupService is already running"),
     snd (advance (invoke (X := Toy.externals) (CallExport Toy.acceptBytes))
            (Toy.env Toy.iv1) idle)).
Proof.
  refine (proj1 (proj2
    (busy_call_rejected_without_effects (X := Toy.externals) (Toy.env Toy.iv1)
       (CallExport Toy.acceptBytes) (CallImport (Toy.replay Toy.envelope1))
       idle
       (fst (advance (invoke (X := Toy.externals) (CallExport Toy.acceptBytes))
               (Toy.env Toy.iv1) idle))
       _ _))).
  apply InFlight_first; reflexivity.
Defined.

Lemma running_flag_witness :
  isRunning idle = false
  /\ exists t w',
       advance (invoke (X := Toy.externals) (CallExport Toy.acceptBytes))
         (Toy.env Toy.iv1) idle = (t, w')
       /\ suspended t = true
       /\ isRunning w' = true
       /\ isRunning (snd (run (invoke (X := Toy.externals)
                                 (CallExport Toy.acceptBytes))
                            (Toy.env Toy.iv1) idle)) = false.
Proof.
  split; [reflexivity|].
  destruct (running_flag_raised_then_cleared (X := Toy.externals)
              (Toy.env Toy.iv1) (CallExport Toy.acceptBytes) idle eq_refl)
    as (_ & Hsusp & Hclear).
  destruct (Hsusp Toy.keys eq_refl (conj eq_refl eq_refl))
    as (t & w' & Ha & Hs & _ & Hr & _).
  exists t, w'. auto.
Defined.

(* ================================================================== *)
(** * The envelope: wire format, round trip, fresh IVs *)

Section Envelope.
Context {X : Externals}.

Lemma trace_settled (evs : list Event) (w : World) :
  trace (settled evs w) = trace w ++ evs.
Proof. reflexivity. Qed.

Lemma writesOf_app (a b : list Event) : writesOf (a ++ b) = writesOf a ++ writesOf b.
Proof. apply flat_map_app. Qed.

Lemma recordsOf_app (a b : list Event) :
  recordsOf (a ++ b) = recordsOf a ++ recordsOf b.
Proof. apply flat_map_app. Qed.

(** An export on an idle service whose collaborators do not fail. *)
Lemma run_export_envelope (env : Env) (sink : Writable) (w : World)
    (km : KeyMaterial) (rs : bytes) :
  isRunning w = false ->
  getKeyMaterial env = Ok km ->
  length (aesKey km) = AES256_KEY_LENGTH ->
  length (randomBytes env IV_LENGTH) = IV_LENGTH ->
  backupExportStream env = Ok rs ->
  sink (EncryptedBackupEnvelope km (randomBytes env IV_LENGTH) rs) = Ok tt ->
  run (exportBackup sink) env w
  = (Ok tt,
     settled
       [EvLog "exportBackup: starting..."; EvPipelineStart ExportPipeline;
        EvWrite (EncryptedBackupEnvelope km (randomBytes env IV_LENGTH) rs);
        EvLog "exportBackup: finished..."] w).
Proof.
  intros Hidle Hk Hkey Hiv Hrs Hsink.
  now rewrite run_exportBackup, (exportOutcome_envelope env sink km rs).
Qed.

(** An import, on an idle service, of an envelope of the wire format. *)
Lemma run_import_envelope (Htag : HmacTagLength X) (Haes : AesBlockInverse X)
    (env : Env) (w : World) (km : KeyMaterial) (iv rs : bytes)
    (R : list bytes) :
  isRunning w = false ->
  getKeyMaterial env = Ok km ->
  length iv = IV_LENGTH ->
  gunzip (specPad (gzip rs)) = Ok rs ->
  delimitedFrames rs = Ok R ->
  backupImportStream env R = Ok tt ->
  run (importBackup (fun _ => Ok (EncryptedBackupEnvelope km iv rs))) env w
  = (Ok tt,
     settled
       [EvLog "importBackup: starting..."; EvPipelineStart ImportPass1;
        EvDiscard (iv ++ specCiphertext km iv rs);
        EvPipelineStart ImportPass2; EvRecords R;
        EvLog "importBackup: finished..."] w).
Proof.
  intros Hidle Hk Hiv Hz Hfr Hsink.
  now rewrite run_importBackup,
    (importOutcome_envelope Htag Haes env km iv rs R).
Qed.

(** C2. With a 32-byte cipher key and a 16-byte IV, the bytes
    [exportBackup] writes to its sink are the envelope of the wire format: the 16-byte IV, then the
    AES-256-CBC encryption under that IV of the gzip-compressed, then
    padded, record stream, then the 32-byte HMAC-SHA-256 of the IV followed
    by the ciphertext. *)
Theorem export_writes_wire_format (Htag : HmacTagLength X)
    (env : Env) (sink : Writable) (w : World) (km : KeyMaterial) (rs : bytes) :
  isRunning w = false ->
  getKeyMaterial env = Ok km ->
  length (aesKey km) = AES256_KEY_LENGTH ->
  backupExportStream env = Ok rs ->
  length (randomBytes env IV_LENGTH) = IV_LENGTH ->
  sink (EncryptedBackupEnvelope km (randomBytes env IV_LENGTH) rs) = Ok tt ->
  let iv := randomBytes env IV_LENGTH in
  let e := EncryptedBackupEnvelope km iv rs in
  fst (run (exportBackup sink) env w) = Ok tt
  /\ writesOf (trace (snd (run (exportBackup sink) env w)))
     = writesOf (trace w) ++ [e]
  /\ e = envelopeIv e ++ envelopeCiphertext e ++ envelopeMac e
  /\ envelopeIv e = iv
  /\ length (envelopeIv e) = 16
  /\ envelopeCiphertext e
     = cbcEncrypt (aesKey km) iv (gzip rs ++ logPadding (length (gzip rs)))
  /\ envelopeMac e = hmacSha256 (macKey km) (iv ++ envelopeCiphertext e)
  /\ length (envelopeMac e) = 32.
Proof.
  intros Hidle Hk Hkey Hrs Hiv Hsink iv e.
  destruct (EncryptedBackupEnvelope_parts Htag km iv rs Hiv)
    as (Hl & Hp & Ht & Hi & Hc).
  fold e in Hl, Hp, Ht, Hi, Hc.
  rewrite (run_export_envelope env sink w km rs) by assumption.
  cbn [fst snd]. rewrite trace_settled, writesOf_app.
  repeat split.
  - now rewrite Hi, Hc, Ht.
  - exact Hi.
  - now rewrite Hi.
  - exact Hc.
  - now rewrite Hc.
  - rewrite Ht. apply Htag.
Qed.

(** C1. With a 32-byte cipher key and a 16-byte IV, importing the envelope
    that an export wrote delivers to the record sink exactly the frames of
    the exported record stream: with [R] the frames the delimiter reads
    from the exported bytes (empty or not), the export succeeds, writes one
    envelope [e], and an import over a factory replaying [e] succeeds and
    delivers [R]. *)
Theorem import_of_export_roundtrip
    (Htag : HmacTagLength X) (Haes : AesBlockInverse X)
    (env : Env) (sink : Writable) (w : World) (km : KeyMaterial)
    (rs : bytes) (R : list bytes) :
  isRunning w = false ->
  getKeyMaterial env = Ok km ->
  length (aesKey km) = AES256_KEY_LENGTH ->
  backupExportStream env = Ok rs ->
  length (randomBytes env IV_LENGTH) = IV_LENGTH ->
  gunzip (specPad (gzip rs)) = Ok rs ->
  delimitedFrames rs = Ok R ->
  sink (EncryptedBackupEnvelope km (randomBytes env IV_LENGTH) rs) = Ok tt ->
  backupImportStream env R = Ok tt ->
  exists e w1,
    run (exportBackup sink) env w = (Ok tt, w1)
    /\ writesOf (trace w1) = writesOf (trace w) ++ [e]
    /\ fst (run (importBackup (fun _ => Ok e)) env w1) = Ok tt
    /\ recordsOf (trace (snd (run (importBackup (fun _ => Ok e)) env w1)))
       = recordsOf (trace w) ++ R.
Proof.
  intros Hidle Hk Hkey Hrs Hiv Hz Hfr Hsink Hrec.
  exists (EncryptedBackupEnvelope km (randomBytes env IV_LENGTH) rs).
  eexists. split; [apply (run_export_envelope env sink w km rs); assumption|].
  rewrite (run_import_envelope Htag Haes _ _ km _ rs R); auto.
  cbn [fst snd]. rewrite !trace_settled, !writesOf_app, !recordsOf_app.
  cbn. rewrite !app_nil_r. auto.
Qed.

(** C9. Two exports of one record stream under one key material, with a
    32-byte cipher key, whose random 16-byte IVs differ write envelopes
    that start with those IVs and whose ciphertext bodies differ; imported,
    both deliver the same frames. *)
Theorem fresh_iv_changes_ciphertext
    (Htag : HmacTagLength X) (Haes : AesBlockInverse X)
    (env1 env2 : Env) (sink1 sink2 : Writable) (w1 w2 : World)
    (km : KeyMaterial) (rs : bytes) (R : list bytes) :
  isRunning w1 = false -> isRunning w2 = false ->
  getKeyMaterial env1 = Ok km -> getKeyMaterial env2 = Ok km ->
  length (aesKey km) = AES256_KEY_LENGTH ->
  backupExportStream env1 = Ok rs -> backupExportStream env2 = Ok rs ->
  length (randomBytes env1 IV_LENGTH) = IV_LENGTH ->
  length (randomBytes env2 IV_LENGTH) = IV_LENGTH ->
  randomBytes env1 IV_LENGTH <> randomBytes env2 IV_LENGTH ->
  gunzip (specPad (gzip rs)) = Ok rs ->
  delimitedFrames rs = Ok R ->
  backupImportStream env1 R = Ok tt -> backupImportStream env2 R = Ok tt ->
  sink1 (EncryptedBackupEnvelope km (randomBytes env1 IV_LENGTH) rs) = Ok tt ->
  sink2 (EncryptedBackupEnvelope km (randomBytes env2 IV_LENGTH) rs) = Ok tt ->
  exists e1 e2,
    writesOf (trace (snd (run (exportBackup sink1) env1 w1)))
      = writesOf (trace w1) ++ [e1]
    /\ writesOf (trace (snd (run (exportBackup sink2) env2 w2)))
      = writesOf (trace w2) ++ [e2]
    /\ envelopeIv e1 = randomBytes env1 IV_LENGTH
    /\ envelopeIv e2 = randomBytes env2 IV_LENGTH
    /\ envelopeCiphertext e1 <> envelopeCiphertext e2
    /\ (forall w, isRunning w = false ->
          fst (run (importBackup (fun _ => Ok e1)) env1 w) = Ok tt
          /\ recordsOf (trace (snd (run (importBackup (fun _ => Ok e1)) env1 w)))
             = recordsOf (trace w) ++ R)
    /\ (forall w, isRunning w = false ->
          fst (run (importBackup (fun _ => Ok e2)) env2 w) = Ok tt
          /\ recordsOf (trace (snd (run (importBackup (fun _ => Ok e2)) env2 w)))
             = recordsOf (trace w) ++ R).
Proof.
  intros Hw1 Hw2 Hk1 Hk2 Hkey Hrs1 Hrs2 Hiv1 Hiv2 Hne Hz Hfr Hrec1 Hrec2 Hs1
    Hs2.
  exists (EncryptedBackupEnvelope km (randomBytes env1 IV_LENGTH) rs),
         (EncryptedBackupEnvelope km (randomBytes env2 IV_LENGTH) rs).
  destruct (EncryptedBackupEnvelope_parts Htag km _ rs Hiv1)
    as (_ & _ & _ & Hi1 & Hc1).
  destruct (EncryptedBackupEnvelope_parts Htag km _ rs Hiv2)
    as (_ & _ & _ & Hi2 & Hc2).
  rewrite (run_export_envelope env1 sink1 w1 km rs) by assumption.
  rewrite (run_export_envelope env2 sink2 w2 km rs) by assumption.
  cbn [snd]. rewrite !trace_settled, !writesOf_app.
  repeat split; auto.
  - rewrite Hc1, Hc2. unfold specCiphertext. intros E.
    apply Hne.
    exact (cbcEncrypt_iv_inj Haes (aesKey km) _ _ _ Hiv1 Hiv2 E).
  - rewrite (run_import_envelope Htag Haes env1 w km _ rs R); auto.
  - rewrite (run_import_envelope Htag Haes env1 w km _ rs R); auto.
    cbn [snd]. rewrite trace_settled, recordsOf_app. cbn.
    now rewrite app_nil_r.
  - rewrite (run_import_envelope Htag Haes env2 w km _ rs R); auto.
  - rewrite (run_import_envelope Htag Haes env2 w km _ rs R); auto.
    cbn [snd]. rewrite trace_settled, recordsOf_app. cbn.
    now rewrite app_nil_r.
Qed.

End Envelope.

Lemma export_wire_format_witness :
  writesOf (trace (snd (run (exportBackup (X := Toy.externals) Toy.acceptBytes)
                          (Toy.env Toy.iv1) idle)))
  = [Toy.envelope1].
Proof.
  exact (proj1 (proj2
    (export_writes_wire_format (X := Toy.externals) toy_hmac_tag_length
       (Toy.env Toy.iv1) Toy.acceptBytes idle Toy.keys Toy.recordStream
       eq_refl eq_refl eq_refl eq_refl eq_refl eq_refl))).
Defined.

Lemma roundtrip_witness :
  delimitedFrames (Externals := Toy.externals) Toy.recordStream = Ok Toy.records
  /\ exists e w1,
       run (exportBackup (X := Toy.externals) Toy.acceptBytes)
           (Toy.env Toy.iv1) idle = (Ok tt, w1)
       /\ writesOf (trace w1) = [e]
       /\ fst (run (importBackup (X := Toy.externals) (fun _ => Ok e))
                 (Toy.env Toy.iv1) w1) = Ok tt
       /\ recordsOf (trace (snd (run (importBackup (X := Toy.externals)
                                        (fun _ => Ok e))
                                   (Toy.env Toy.iv1) w1)))
          = Toy.records.
Proof.
  split; [reflexivity|].
  apply (import_of_export_roundtrip (X := Toy.externals)
           toy_hmac_tag_length toy_aes_block_inverse
           (Toy.env Toy.iv1) Toy.acceptBytes idle Toy.keys
           Toy.recordStream Toy.records);
    reflexivity.
Defined.

Lemma fresh_iv_witness :
  Toy.iv1 <> Toy.iv2
  /\ exists e1 e2,
       writesOf (trace (snd (run (exportBackup (X := Toy.externals)
                                    Toy.acceptBytes) (Toy.env Toy.iv1) idle)))
         = [e1]
       /\ writesOf (trace (snd (run (exportBackup (X := Toy.externals)
                                       Toy.acceptBytes) (Toy.env Toy.iv2) idle)))
         = [e2]
       /\ envelopeIv e1 = Toy.iv1
       /\ envelopeIv e2 = Toy.iv2
       /\ envelopeCiphertext e1 <> envelopeCiphertext e2
       /\ (forall w, isRunning w = false ->
             fst (run (importBackup (X := Toy.externals) (fun _ => Ok e1))
                    (Toy.env Toy.iv1) w) = Ok tt
             /\ recordsOf (trace (snd (run (importBackup (X := Toy.externals)
                                              (fun _ => Ok e1))
                                         (Toy.env Toy.iv1) w)))
                = recordsOf (trace w) ++ Toy.records)
       /\ (forall w, isRunning w = false ->
             fst (run (importBackup (X := Toy.externals) (fun _ => Ok e2))
                    (Toy.env Toy.iv2) w) = Ok tt
             /\ recordsOf (trace (snd (run (importBackup (X := Toy.externals)
                                              (fun _ => Ok e2))
                                         (Toy.env Toy.iv2) w)))
                = recordsOf (trace w) ++ Toy.records).
Proof.
  split; [discriminate|].
  apply (fresh_iv_changes_ciphertext (X := Toy.externals)
           toy_hmac_tag_length toy_aes_block_inverse
           (Toy.env Toy.iv1) (Toy.env Toy.iv2) Toy.acceptBytes Toy.acceptBytes
           idle idle Toy.keys Toy.recordStream Toy.records);
    try reflexivity.
  discriminate.
Defined.

(* ================================================================== *)
(** * The import verifier *)

Section Verifier.
Context {X : Externals}.

#[local] Arguments hmacSha256 : simpl never.
#[local] Arguments String.append : simpl never.
#[local] Arguments constantTimeEqual : simpl never.

(** The three ways the first pass ends once the source has been read. *)
Lemma importOutcome_missing_mac (env : Env) (f : Factory)
    (km : KeyMaterial) (s1 : bytes) :
  getKeyMaterial env = Ok km -> f 0 = Ok s1 ->
  length s1 < MAC_LENGTH ->
  importOutcome env f
  = importFailed (AssertionError "importBackup: Missing MAC")
      [EvPipelineStart ImportPass1; EvDiscard []].
Proof.
  intros Hk Hs Hl. unfold importOutcome. rewrite Hk, Hs.
  now rewrite getMacAndUpdateHmac_short.
Qed.

Lemma importOutcome_bad_mac (env : Env) (f : Factory)
    (km : KeyMaterial) (s1 : bytes) :
  getKeyMaterial env = Ok km -> f 0 = Ok s1 ->
  MAC_LENGTH <= length s1 ->
  constantTimeEqual (hmacSha256 (macKey km) (envelopePayload s1))
    (envelopeMac s1) = false ->
  importOutcome env f
  = importFailed (AssertionError "importBackup: Bad MAC")
      [EvPipelineStart ImportPass1; EvDiscard (envelopePayload s1)].
Proof.
  intros Hk Hs Hl Hne. unfold importOutcome. rewrite Hk, Hs.
  rewrite getMacAndUpdateHmac_long by assumption. cbn [fst snd].
  now rewrite hmacDigest_fresh, Hne.
Qed.

Lemma importOutcome_verified (env : Env) (f : Factory)
    (km : KeyMaterial) (s1 : bytes) :
  getKeyMaterial env = Ok km -> f 0 = Ok s1 ->
  MAC_LENGTH <= length s1 ->
  constantTimeEqual (hmacSha256 (macKey km) (envelopePayload s1))
    (envelopeMac s1) = true ->
  importOutcome env f
  = let pass1 := [EvPipelineStart ImportPass1;
                  EvDiscard (envelopePayload s1)] in
    match secondPass km (f 1) (backupImportStream env) with
    | Err e =>
        importFailed e
          (pass1 ++ [EvPipelineStart ImportPass2;
                     EvRecords (deliveredBeforeFailure env)])
    | Ok (hmac2, _, evs) =>
        if constantTimeEqual (hmacDigest hmac2) (envelopeMac s1) then
          (Ok tt,
           EvLog "importBackup: starting..." :: pass1
             ++ EvPipelineStart ImportPass2 :: evs
             ++ [EvLog "importBackup: finished..."])
        else
          importFailed (AssertionError "importBackup: Bad MAC, second pass")
            (pass1 ++ EvPipelineStart ImportPass2 :: evs)
    end.
Proof.
  intros Hk Hs Hl He. unfold importOutcome. rewrite Hk, Hs.
  rewrite getMacAndUpdateHmac_long by assumption. cbn [fst snd].
  now rewrite hmacDigest_fresh, He.
Qed.

(** The second pass is started only by an import whose first pass captured
    a whole tag that equals the HMAC of the bytes before it; up to that
    start, the import has only run the first pass over the raw stream. *)
Lemma pass2_started_inv (env : Env) (f : Factory) :
  started ImportPass2 (snd (importOutcome env f)) = true ->
  exists km s1 post,
    getKeyMaterial env = Ok km /\ f 0 = Ok s1
    /\ MAC_LENGTH <= length s1
    /\ length (envelopeMac s1) = MAC_LENGTH
    /\ constantTimeEqual (hmacSha256 (macKey km) (envelopePayload s1))
         (envelopeMac s1) = true
    /\ snd (importOutcome env f)
       = [EvLog "importBackup: starting..."; EvPipelineStart ImportPass1;
          EvDiscard (envelopePayload s1)]
           ++ EvPipelineStart ImportPass2 :: post.
Proof.
  destruct (getKeyMaterial env) as [km|e] eqn:Hk;
    [|unfold importOutcome; rewrite Hk; discriminate].
  destruct (f 0) as [s1|e] eqn:Hs;
    [|unfold importOutcome; rewrite Hk, Hs; discriminate].
  destruct (le_lt_dec MAC_LENGTH (length s1)) as [Hl|Hl];
    [|rewrite (importOutcome_missing_mac env f km s1) by assumption;
      discriminate].
  destruct (constantTimeEqual (hmacSha256 (macKey km) (envelopePayload s1))
              (envelopeMac s1)) eqn:He;
    [|rewrite (importOutcome_bad_mac env f km s1) by assumption;
      discriminate].
  rewrite (importOutcome_verified env f km s1) by assumption. intros _.
  exists km, s1.
  destruct (envelope_parts s1 Hl) as (_ & Ht & _).
  destruct (secondPass km (f 1) (backupImportStream env))
    as [[[hmac2 []] evs]|e]; cbn zeta.
  - destruct (constantTimeEqual (hmacDigest hmac2) (envelopeMac s1));
      eexists; repeat split; auto.
  - eexists; repeat split; auto.
Qed.

(** C3. In every import, the second pass (the only one that decrypts)
    is started only after the first pass has run over the raw stream,
    discarding it, and its comparison has succeeded; when the first-pass
    comparison fails, the import fails with the authentication error,
    no second pass is started and no frame reaches the record sink. *)
Theorem pass2_only_after_pass1_verified (env : Env) (f : Factory) (w : World) :
  isRunning w = false ->
  exists r evs,
    run (importBackup f) env w = (r, settled evs w)
    /\ (started ImportPass2 evs = true ->
        exists km s1 post,
          getKeyMaterial env = Ok km /\ f 0 = Ok s1
          /\ MAC_LENGTH <= length s1
          /\ constantTimeEqual (hmacSha256 (macKey km) (envelopePayload s1))
               (envelopeMac s1) = true
          /\ evs = [EvLog "importBackup: starting...";
                    EvPipelineStart ImportPass1;
                    EvDiscard (envelopePayload s1)]
                     ++ EvPipelineStart ImportPass2 :: post)
    /\ (forall km s1,
          getKeyMaterial env = Ok km -> f 0 = Ok s1 ->
          MAC_LENGTH <= length s1 ->
          constantTimeEqual (hmacSha256 (macKey km) (envelopePayload s1))
            (envelopeMac s1) = false ->
          r = Err (AssertionError "importBackup: Bad MAC")
          /\ errorKind (AssertionError "importBackup: Bad MAC")
             = AuthenticationFailed
          /\ started ImportPass2 evs = false
          /\ recordsOf evs = []).
Proof.
  intros Hidle. rewrite run_importBackup by assumption.
  eexists. eexists. split; [reflexivity|]. split.
  - intros Hst. destruct (pass2_started_inv env f Hst)
      as (km & s1 & post & Hk & Hs & Hl & _ & He & Hev).
    exists km, s1, post. auto.
  - intros km s1 Hk Hs Hl Hne.
    rewrite (importOutcome_bad_mac env f km s1) by assumption.
    repeat split.
Qed.

(** C7. Once the first pass has verified, the second pass feeds a fresh
    accumulator with the bytes of the second stream that precede its last 32
    bytes, and after its pipeline has drained the digest is compared with the
    tag captured in the first pass.  The last 32 bytes of the second stream
    play no part.  When the pipeline drains, the import succeeds exactly when
    that comparison does; on a mismatch it fails with the second-pass
    bad-MAC error, the frames having been delivered already.  A mismatch
    makes the import fail whether or not the pipeline drains. *)
Theorem second_pass_rechecks_first_tag (env : Env) (f : Factory) (w : World)
    (km : KeyMaterial) (s1 p2 t2 : bytes) :
  isRunning w = false ->
  getKeyMaterial env = Ok km ->
  f 0 = Ok s1 ->
  MAC_LENGTH <= length s1 ->
  hmacSha256 (macKey km) (envelopePayload s1) = envelopeMac s1 ->
  f 1 = Ok (p2 ++ t2) ->
  length t2 = MAC_LENGTH ->
  let pass1 := [EvLog "importBackup: starting...";
                EvPipelineStart ImportPass1;
                EvDiscard (envelopePayload s1)] in
  (forall fs,
      getIvAndDecipher (aesKey km) p2 |> createGunzip |> DelimitedStream
        = Ok fs ->
      backupImportStream env fs = Ok tt ->
      run (importBackup f) env w
      = if constantTimeEqual (hmacSha256 (macKey km) p2) (envelopeMac s1)
        then (Ok tt,
              settled (pass1 ++ [EvPipelineStart ImportPass2; EvRecords fs;
                                 EvLog "importBackup: finished..."]) w)
        else (Err (AssertionError "importBackup: Bad MAC, second pass"),
              settled (pass1 ++ [EvPipelineStart ImportPass2; EvRecords fs;
                                 EvLog ("importBackup: failed, error: "
                                        ++ "importBackup: Bad MAC, second pass")])
                w))
  /\ (hmacSha256 (macKey km) p2 <> envelopeMac s1 ->
      exists e, fst (run (importBackup f) env w) = Err e).
Proof.
  intros Hidle Hk Hs1 Hl Hv Hs2 Ht2 pass1.
  rewrite run_importBackup by assumption.
  rewrite (importOutcome_verified env f km s1)
    by (auto; rewrite Hv; apply constantTimeEqual_refl).
  unfold secondPass. rewrite Hs2. cbn [pipe].
  destruct (envelope_of_parts p2 t2 Ht2) as [Hp2 Hm2].
  rewrite getMacAndUpdateHmac_long by (rewrite length_app; lia).
  rewrite Hp2, Hm2.
  unfold through, deliverTo, createGunzip, DelimitedStream.
  cbn [fst snd]. split.
  - intros fs Hdec Hsink.
    destruct (getIvAndDecipher (aesKey km) p2) as [plain|e]; [|discriminate].
    cbn [pipe fst snd] in *.
    destruct (gunzip plain) as [rs|e]; [|discriminate].
    cbn [pipe fst snd] in *. rewrite Hdec. cbn [pipe fst snd]. rewrite Hsink.
    cbn [pipe]. cbn zeta. rewrite hmacDigest_fresh.
    destruct (constantTimeEqual (hmacSha256 (macKey km) p2) (envelopeMac s1));
      reflexivity.
  - intros Hne.
    destruct (getIvAndDecipher (aesKey km) p2) as [plain|e];
      cbn [pipe fst snd]; [|eexists; reflexivity].
    destruct (gunzip plain) as [rs|e]; cbn [pipe fst snd];
      [|eexists; reflexivity].
    destruct (delimitedFrames rs) as [fs|e]; cbn [pipe fst snd];
      [|eexists; reflexivity].
    destruct (backupImportStream env fs) as [[]|e]; cbn [pipe fst snd];
      [|eexists; reflexivity].
    cbn zeta. rewrite hmacDigest_fresh, (constantTimeEqual_neq _ _ Hne).
    eexists; reflexivity.
Qed.

Lemma flipBitAt_in_payload (p t : bytes) (i : nat) :
  length t = MAC_LENGTH -> i / 8 < length p ->
  envelopePayload (flipBitAt i (p ++ t)) = flipBitAt i p
  /\ envelopeMac (flipBitAt i (p ++ t)) = t.
Proof.
  intros Ht Hi. unfold flipBitAt. rewrite flip_byte_at_app_l by assumption.
  now apply envelope_of_parts.
Qed.

Lemma flipBitAt_in_tag (p t : bytes) (i : nat) :
  length t = MAC_LENGTH -> length p <= i / 8 -> i / 8 < length p + length t ->
  envelopePayload (flipBitAt i (p ++ t)) = p
  /\ envelopeMac (flipBitAt i (p ++ t)) <> t.
Proof.
  intros Ht Hp Hi. unfold flipBitAt. rewrite flip_byte_at_app_r by assumption.
  destruct (envelope_of_parts p
              (flip_byte_at (i / 8 - length p) (i mod 8) t)) as [Ep Et].
  { now rewrite flip_byte_at_length. }
  split; auto. rewrite Et. apply flip_byte_at_changes.
  - lia.
  - apply Nat.mod_upper_bound. discriminate.
Qed.

(** C8. Take an envelope whose trailing 32 bytes are the HMAC of the bytes
    before them, and flip any one of its bits.  Over a source replaying the
    result, the import fails in the first pass with the bad-MAC error,
    starts no second pass and delivers no frame.  For a bit of the tag this
    holds outright; for a bit of the IV or of the ciphertext it holds as
    long as HMAC-SHA-256 tells the flipped payload from the original. *)
Theorem single_bit_flip_fails_in_pass1 (env : Env) (w : World)
    (km : KeyMaterial) (e : bytes) (i : nat) :
  isRunning w = false ->
  getKeyMaterial env = Ok km ->
  IV_LENGTH + MAC_LENGTH <= length e ->
  envelopeMac e = hmacSha256 (macKey km) (envelopePayload e) ->
  i < 8 * length e ->
  (i / 8 < length e - MAC_LENGTH ->
   hmacSha256 (macKey km) (flipBitAt i (envelopePayload e))
     <> hmacSha256 (macKey km) (envelopePayload e)) ->
  exists evs,
    run (importBackup (fun _ => Ok (flipBitAt i e))) env w
      = (Err (AssertionError "importBackup: Bad MAC"), settled evs w)
    /\ errorKind (AssertionError "importBackup: Bad MAC") = AuthenticationFailed
    /\ started ImportPass2 evs = false
    /\ recordsOf evs = [].
Proof.
  intros Hidle Hk Hlen Hvalid Hi Hcr.
  assert (Hl : MAC_LENGTH <= length e) by lia.
  destruct (envelope_parts e Hl) as (He & Ht & Hp).
  assert (Hi8 : i / 8 < length e)
    by (apply Nat.Div0.div_lt_upper_bound; lia).
  assert (Hbad : constantTimeEqual
                   (hmacSha256 (macKey km) (envelopePayload (flipBitAt i e)))
                   (envelopeMac (flipBitAt i e)) = false).
  { apply constantTimeEqual_neq.
    replace (flipBitAt i e)
      with (flipBitAt i (envelopePayload e ++ envelopeMac e))
      by (now rewrite <- He).
    destruct (le_lt_dec (length (envelopePayload e)) (i / 8)) as [Hin|Hin].
    - destruct (flipBitAt_in_tag (envelopePayload e) (envelopeMac e) i Ht Hin)
        as [Ep Et]; [lia|].
      rewrite Ep, <- Hvalid. auto.
    - destruct (flipBitAt_in_payload (envelopePayload e) (envelopeMac e) i
                  Ht Hin) as [Ep Et].
      rewrite Ep, Et, Hvalid. apply Hcr. lia. }
  rewrite run_importBackup by assumption.
  rewrite (importOutcome_bad_mac env _ km (flipBitAt i e)); auto.
  - eexists. split; [reflexivity|]. repeat split.
  - rewrite flipBitAt_length. lia.
Qed.

End Verifier.

Lemma pass2_after_pass1_witness :
  exists r evs,
    run (importBackup (X := Toy.externals) (Toy.replay Toy.envelope1))
        (Toy.env Toy.iv1) idle = (r, settled evs idle)
    /\ started ImportPass2 evs = true.
Proof.
  destruct (pass2_only_after_pass1_verified (X := Toy.externals)
              (Toy.env Toy.iv1) (Toy.replay Toy.envelope1) idle eq_refl)
    as (r & evs & Hrun & _).
  exists r, evs. split; [exact Hrun|].
  vm_compute in Hrun. injection Hrun as _ Hevs.
  assert (E : trace (settled evs idle) = evs) by reflexivity.
  rewrite <- E, <- Hevs. reflexivity.
Defined.

Lemma second_pass_recheck_witness :
  fst (run (importBackup (X := Toy.externals)
              (fun n => match n with
                        | 0 => Ok Toy.envelope1
                        | _ => Ok (envelopePayload Toy.envelope1
                                     ++ repeat xff MAC_LENGTH)
                        end))
         (Toy.env Toy.iv1) idle) = Ok tt.
Proof.
  pose proof (proj1 (second_pass_rechecks_first_tag (X := Toy.externals)
    (Toy.env Toy.iv1)
    (fun n => match n with
              | 0 => Ok Toy.envelope1
              | _ => Ok (envelopePayload Toy.envelope1 ++ repeat xff MAC_LENGTH)
              end)
    idle Toy.keys Toy.envelope1 (envelopePayload Toy.envelope1)
    (repeat xff MAC_LENGTH)
    eq_refl eq_refl eq_refl ltac:(vm_compute; lia) eq_refl eq_refl eq_refl)
    Toy.records eq_refl eq_refl) as H.
  rewrite H. reflexivity.
Defined.

Lemma single_bit_flip_witness :
  exists evs,
    run (importBackup (X := Toy.externals)
           (fun _ => Ok (flipBitAt 130 Toy.envelope1)))
        (Toy.env Toy.iv1) idle
      = (Err (AssertionError "importBackup: Bad MAC"), settled evs idle)
    /\ started ImportPass2 evs = false.
Proof.
  destruct (single_bit_flip_fails_in_pass1 (X := Toy.externals)
              (Toy.env Toy.iv1) idle Toy.keys Toy.envelope1 130
              eq_refl eq_refl)
    as (evs & Hrun & _ & Hst & _).
  - vm_compute. lia.
  - reflexivity.
  - vm_compute. lia.
  - intros _ H. vm_compute in H. discriminate H.
  - exists evs. auto.
Defined.

(* ================================================================== *)
(** * Further properties of the two operations *)

Section Calls.
Context {X : Externals}.

#[local] Arguments hmacSha256 : simpl never.
#[local] Arguments String.append : simpl never.
#[local] Arguments constantTimeEqual : simpl never.
#[local] Arguments cbcEncrypt : simpl never.
#[local] Arguments createCipheriv : simpl never.

Lemma run_invoke (env : Env) (o : Operation) (w : World) :
  isRunning w = false ->
  run (invoke o) env w
  = (fst (outcomeOf env o), settled (snd (outcomeOf env o)) w).
Proof.
  intros Hidle. destruct o as [sink|f]; simpl invoke; simpl outcomeOf.
  - now apply run_exportBackup.
  - now apply run_importBackup.
Qed.

Lemma run_invoke_busy (env : Env) (o : Operation) (w : World) :
  isRunning w = true ->
  run (invoke o) env w
  = (Err (AssertionError "BackupService is already running"), w).
Proof.
  intros Hbusy. rewrite run_advance, (advance_busy env o w Hbusy). reflexivity.
Qed.

(** X1. Calls awaited one after the other on an idle service are never
    rejected as busy, whatever failed before: each settles with the outcome
    it has on an idle service, the events pile up in order, [isStarted] is
    left alone and the service is idle at the end. *)
Theorem sequential_calls_never_busy (calls : list (Env * Operation)) (w : World) :
  isRunning w = false ->
  fst (runAll calls w) = map (fun c => fst (outcomeOf (fst c) (snd c))) calls
  /\ trace (snd (runAll calls w))
     = trace w ++ flat_map (fun c => snd (outcomeOf (fst c) (snd c))) calls
  /\ isRunning (snd (runAll calls w)) = false
  /\ isStarted (snd (runAll calls w)) = isStarted w.
Proof.
  revert w. induction calls as [|[env o] rest IH]; intros w Hidle.
  - simpl. rewrite app_nil_r. auto.
  - cbn [runAll]. rewrite (run_invoke env o w Hidle).
    specialize (IH (settled (snd (outcomeOf env o)) w) eq_refl).
    destruct (runAll rest (settled (snd (outcomeOf env o)) w)) as [rs w''].
    cbn [fst snd] in *. destruct IH as (Hr & Ht & Hrun & Hst).
    repeat split; auto.
    + cbn [map fst snd]. now rewrite Hr.
    + rewrite Ht, trace_settled. cbn [flat_map fst snd].
      now rewrite app_assoc.
Qed.

Lemma startsOf_app (a b : list Event) :
  startsOf (a ++ b) = startsOf a ++ startsOf b.
Proof.
  apply flat_map_app.
Qed.

Lemma exportOutcome_key_error (env : Env) (sink : Writable) (e : Error) :
  getKeyMaterial env = Err e ->
  exportOutcome env sink
  = (Err e, [EvLog "exportBackup: starting...";
             EvLog "exportBackup: finished..."]).
Proof.
  intros Hk. unfold exportOutcome. now rewrite Hk.
Qed.

Lemma exportOutcome_cipher_error (env : Env) (sink : Writable)
    (km : KeyMaterial) (e : Error) :
  getKeyMaterial env = Ok km ->
  createCipheriv AES256CBC (aesKey km) (randomBytes env IV_LENGTH) = Err e ->
  exportOutcome env sink
  = (Err e, [EvLog "exportBackup: starting...";
             EvLog "exportBackup: finished..."]).
Proof.
  intros Hk Hc. unfold exportOutcome. rewrite Hk. cbn zeta. now rewrite Hc.
Qed.

Lemma exportOutcome_pipeline_error (env : Env) (sink : Writable)
    (km : KeyMaterial) (e : Error) :
  getKeyMaterial env = Ok km ->
  length (aesKey km) = AES256_KEY_LENGTH ->
  length (randomBytes env IV_LENGTH) = IV_LENGTH ->
  (backupExportStream env = Err e
   \/ exists rs,
        backupExportStream env = Ok rs
        /\ sink (EncryptedBackupEnvelope km (randomBytes env IV_LENGTH) rs)
           = Err e) ->
  exportOutcome env sink
  = (Err e, [EvLog "exportBackup: starting...";
             EvPipelineStart ExportPipeline;
             EvWrite (writtenBeforeFailure env);
             EvLog "exportBackup: finished..."]).
Proof.
  intros Hk Hkey Hiv Hcause. unfold exportOutcome. rewrite Hk. cbn zeta.
  rewrite (createCipheriv_ok _ _ Hkey Hiv).
  destruct Hcause as [Hrs|(rs & Hrs & Hsink)]; rewrite Hrs.
  - reflexivity.
  - rewrite export_stages_envelope. unfold writeTo. rewrite Hsink.
    reflexivity.
Qed.

(** X3. [exportBackup] on an idle service, with a 16-byte IV drawn, succeeds
    exactly when the key provider returns key material with a 32-byte cipher
    key, the record stream ends without error and the sink accepts the
    envelope.  A key provider error is rethrown as it is, and a cipher key
    that is not 32 bytes long makes the cipher constructor throw: in both
    cases no pipeline is started.  A record stream or sink error is rethrown
    as it is once the pipeline has been started. *)
Theorem export_fails_only_with_a_collaborator
    (env : Env) (sink : Writable) (w : World) :
  isRunning w = false ->
  length (randomBytes env IV_LENGTH) = IV_LENGTH ->
  let out := run (exportBackup sink) env w in
  (fst out = Ok tt <->
     exists km rs,
       getKeyMaterial env = Ok km
       /\ length (aesKey km) = AES256_KEY_LENGTH
       /\ backupExportStream env = Ok rs
       /\ sink (EncryptedBackupEnvelope km (randomBytes env IV_LENGTH) rs)
          = Ok tt)
  /\ (forall e, getKeyMaterial env = Err e ->
        fst out = Err e /\ startsOf (trace (snd out)) = startsOf (trace w))
  /\ (forall km, getKeyMaterial env = Ok km ->
        length (aesKey km) <> AES256_KEY_LENGTH ->
        fst out = Err (CipherError "Invalid key length")
        /\ startsOf (trace (snd out)) = startsOf (trace w))
  /\ (forall km e, getKeyMaterial env = Ok km ->
        length (aesKey km) = AES256_KEY_LENGTH ->
        backupExportStream env = Err e ->
        fst out = Err e
        /\ startsOf (trace (snd out)) = startsOf (trace w) ++ [ExportPipeline])
  /\ (forall km rs e, getKeyMaterial env = Ok km ->
        length (aesKey km) = AES256_KEY_LENGTH ->
        backupExportStream env = Ok rs ->
        sink (EncryptedBackupEnvelope km (randomBytes env IV_LENGTH) rs)
          = Err e ->
        fst out = Err e
        /\ startsOf (trace (snd out)) = startsOf (trace w) ++ [ExportPipeline]).
Proof.
  intros Hidle Hiv out. unfold out. rewrite run_exportBackup by assumption.
  cbn [fst snd]. rewrite trace_settled, startsOf_app.
  assert (Hkeyerr : forall e, getKeyMaterial env = Err e ->
            fst (exportOutcome env sink) = Err e
            /\ startsOf (trace w) ++ startsOf (snd (exportOutcome env sink))
               = startsOf (trace w)).
  { intros e Hk. rewrite (exportOutcome_key_error env sink e Hk).
    cbn. now rewrite app_nil_r. }
  assert (Hbadkey : forall km, getKeyMaterial env = Ok km ->
            length (aesKey km) <> AES256_KEY_LENGTH ->
            fst (exportOutcome env sink)
              = Err (CipherError "Invalid key length")
            /\ startsOf (trace w) ++ startsOf (snd (exportOutcome env sink))
               = startsOf (trace w)).
  { intros km Hk Hkey.
    rewrite (exportOutcome_cipher_error env sink km _ Hk
               (createCipheriv_bad_key _ _ Hkey Hiv)).
    cbn. now rewrite app_nil_r. }
  assert (Hpipe : forall km e, getKeyMaterial env = Ok km ->
            length (aesKey km) = AES256_KEY_LENGTH ->
            (backupExportStream env = Err e
             \/ exists rs,
                  backupExportStream env = Ok rs
                  /\ sink (EncryptedBackupEnvelope km
                             (randomBytes env IV_LENGTH) rs) = Err e) ->
            fst (exportOutcome env sink) = Err e
            /\ startsOf (trace w) ++ startsOf (snd (exportOutcome env sink))
               = startsOf (trace w) ++ [ExportPipeline]).
  { intros km e Hk Hkey Hcause.
    rewrite (exportOutcome_pipeline_error env sink km e Hk Hkey Hiv Hcause).
    split; reflexivity. }
  split; [|split; [exact Hkeyerr|split; [exact Hbadkey|split]]].
  - split.
    + intros Hok.
      destruct (getKeyMaterial env) as [km|e] eqn:Hk;
        [|destruct (Hkeyerr e eq_refl) as [He _]; congruence].
      destruct (Nat.eq_dec (length (aesKey km)) AES256_KEY_LENGTH)
        as [Hkey|Hkey];
        [|destruct (Hbadkey km eq_refl Hkey) as [He _]; congruence].
      destruct (backupExportStream env) as [rs|e] eqn:Hrs;
        [|destruct (Hpipe km e eq_refl Hkey (or_introl eq_refl)) as [He _];
          congruence].
      destruct (sink (EncryptedBackupEnvelope km (randomBytes env IV_LENGTH) rs))
        as [[]|e] eqn:Hsink.
      * exists km, rs. auto.
      * destruct (Hpipe km e eq_refl Hkey
                    (or_intror (ex_intro _ rs (conj eq_refl Hsink))))
          as [He _].
        congruence.
    + intros (km & rs & Hk & Hkey & Hrs & Hsink).
      now rewrite (exportOutcome_envelope env sink km rs Hk Hkey Hiv Hrs Hsink).
  - intros km e Hk Hkey Hrs. apply (Hpipe km e Hk Hkey). now left.
  - intros km rs e Hk Hkey Hrs Hsink. apply (Hpipe km e Hk Hkey).
    right. exists rs. auto.
Qed.

(** X4. [importBackup] on an idle service: a key provider error is logged
    and rethrown as it is without the source factory being invoked (no
    pipeline is started); an error of the first source stream is logged and
    rethrown as it is without a second pass being started. *)
Theorem import_fails_early_with_collaborator
    (env : Env) (f : Factory) (w : World) :
  isRunning w = false ->
  let out := run (importBackup f) env w in
  (forall e, getKeyMaterial env = Err e ->
     out = (Err e,
            settled [EvLog "importBackup: starting...";
                     EvLog ("importBackup: failed, error: " ++ toLogFormat e)]
              w))
  /\ (forall km e, getKeyMaterial env = Ok km -> f 0 = Err e ->
        out = (Err e,
               settled [EvLog "importBackup: starting...";
                        EvPipelineStart ImportPass1;
                        EvLog ("importBackup: failed, error: "
                               ++ toLogFormat e)] w)).
Proof.
  intros Hidle out. unfold out. rewrite run_importBackup by assumption.
  unfold importOutcome. split.
  - intros e Hk. now rewrite Hk.
  - intros km e Hk Hs. now rewrite Hk, Hs.
Qed.

Lemma logsOf_outcome (env : Env) (o : Operation) :
  logsOf (snd (outcomeOf env o))
  = match o with
    | CallExport _ =>
        ["exportBackup: starting..."; "exportBackup: finished..."]%string
    | CallImport _ =>
        ["importBackup: starting...";
         match fst (outcomeOf env o) with
         | Ok _ => "importBackup: finished..."
         | Err e => "importBackup: failed, error: " ++ toLogFormat e
         end]%string
    end.
Proof.
  assert (Hlogs : forall a b, logsOf (a ++ b) = logsOf a ++ logsOf b)
    by (intros; apply flat_map_app).
  destruct o as [sink|f]; cbn [outcomeOf].
  - unfold exportOutcome. destruct (getKeyMaterial env) as [km|e];
      [|reflexivity].
    cbn zeta.
    destruct (createCipheriv AES256CBC (aesKey km) (randomBytes env IV_LENGTH))
      as [cipher|e]; [|reflexivity].
    destruct (backupExportStream env |> _ |> _ |> _ |> _ |> _ |> writeTo sink)
      as [[[] evs]|e] eqn:Hp; [|reflexivity].
    cbn [snd]. unfold writeTo in Hp.
    destruct (backupExportStream env |> _ |> _ |> _ |> _ |> _) as [d|e];
      [|discriminate].
    cbn [pipe] in Hp. destruct (sink d); [|discriminate].
    cbn [pipe] in Hp. injection Hp as <-. reflexivity.
  - unfold importOutcome, importFailed.
    destruct (getKeyMaterial env) as [km|e]; [|reflexivity].
    destruct (f 0) as [s1|e]; [|reflexivity]. cbn zeta.
    destruct (snd (fst (getMacAndUpdateHmac _ _ None s1))) as [theirMac|];
      [|reflexivity].
    destruct (constantTimeEqual _ theirMac); [|reflexivity].
    destruct (secondPass km (f 1) (backupImportStream env))
      as [[[hmac2 []] evs]|e] eqn:Hp.
    + assert (Hevs : logsOf evs = []).
      { unfold secondPass, deliverTo in Hp.
        destruct (f 1 |> _ |> _ |> _ |> _) as [[st fs]|e']; [|discriminate].
        cbn [pipe fst snd] in Hp.
        destruct (backupImportStream env fs); [|discriminate].
        cbn [pipe] in Hp. injection Hp as _ <-. reflexivity. }
      destruct (constantTimeEqual (hmacDigest hmac2) theirMac); cbn [fst snd].
      * change (logsOf (EvLog "importBackup: starting..."
                          :: EvPipelineStart ImportPass1
                          :: EvDiscard (snd (getMacAndUpdateHmac
                               (createHmac size256 (macKey km))
                               (fun theirMacValue _ => Some theirMacValue)
                               None s1))
                          :: EvPipelineStart ImportPass2
                          :: evs ++ [EvLog "importBackup: finished..."])
                = ["importBackup: starting..."; "importBackup: finished..."]%string).
        cbn [logsOf flat_map app]. fold (logsOf (evs ++ [EvLog "importBackup: finished..."])).
        now rewrite Hlogs, Hevs.
      * cbn [app]. cbn [logsOf flat_map app].
        match goal with
        | |- context [flat_map ?g (evs ++ ?l)] =>
            change (flat_map g (evs ++ l)) with (logsOf (evs ++ l))
        end.
        now rewrite Hlogs, Hevs.
    + reflexivity.
Qed.

(** X5. The log lines of a call that passed the busy check.  An export
    logs "starting" and then "finished", also when it fails.  An import logs
    "starting" and then either "finished", when it succeeds, or one failure
    line built from the error it rethrows. *)
Theorem log_lines_of_a_call (env : Env) (o : Operation) (w : World) :
  isRunning w = false ->
  exists evs,
    trace (snd (run (invoke o) env w)) = trace w ++ evs
    /\ logsOf evs
       = match o with
         | CallExport _ =>
             ["exportBackup: starting..."; "exportBackup: finished..."]%string
         | CallImport _ =>
             ["importBackup: starting...";
              match fst (run (invoke o) env w) with
              | Ok _ => "importBackup: finished..."
              | Err e => "importBackup: failed, error: " ++ toLogFormat e
              end]%string
         end.
Proof.
  intros Hidle. rewrite run_invoke by assumption. cbn [fst snd].
  exists (snd (outcomeOf env o)). split; [reflexivity|].
  rewrite logsOf_outcome. destruct o; reflexivity.
Qed.

Lemma writeTo_events (sink : Writable) (r : Readable)
    (u : unit) (evs : list Event) :
  r |> writeTo sink = Ok (u, evs) ->
  exists d, r = Ok d /\ sink d = Ok tt /\ evs = [EvWrite d].
Proof.
  destruct r as [d|e]; cbn [pipe]; [|discriminate]. unfold writeTo.
  destruct (sink d) as [[]|e] eqn:Hs; cbn [pipe]; [|discriminate].
  intros H. injection H as _ <-. exists d. auto.
Qed.

Lemma secondPass_events (km : KeyMaterial) (source : Readable)
    (recordSink : RecordSink) (hmac2 : Hmac) (u : unit) (evs : list Event) :
  secondPass km source recordSink = Ok (hmac2, u, evs) ->
  exists s2 fs,
    source = Ok s2
    /\ IV_LENGTH + MAC_LENGTH <= length s2
    /\ hmac2 = hmacUpdate (createHmac size256 (macKey km)) (envelopePayload s2)
    /\ getIvAndDecipher (aesKey km) (envelopePayload s2)
         |> createGunzip |> DelimitedStream = Ok fs
    /\ recordSink fs = Ok tt
    /\ evs = [EvRecords fs].
Proof.
  unfold secondPass. destruct source as [s2|e]; cbn [pipe]; [|discriminate].
  unfold through, deliverTo, createGunzip, DelimitedStream.
  destruct (le_lt_dec MAC_LENGTH (length s2)) as [Hl|Hl].
  - rewrite getMacAndUpdateHmac_long by assumption. cbn [fst snd].
    destruct (le_lt_dec IV_LENGTH (length (envelopePayload s2))) as [Hiv|Hiv];
      [|rewrite getIvAndDecipher_short by assumption; discriminate].
    destruct (getIvAndDecipher (aesKey km) (envelopePayload s2)) as [plain|e]
      eqn:Hd; cbn [pipe fst snd]; [|discriminate].
    destruct (gunzip plain) as [rs|e] eqn:Hz; cbn [pipe fst snd];
      [|discriminate].
    destruct (delimitedFrames rs) as [fs|e] eqn:Hf; cbn [pipe fst snd];
      [|discriminate].
    destruct (recordSink fs) as [[]|e] eqn:Hs; cbn [pipe]; [|discriminate].
    intros H. injection H as <- _ <-. exists s2, fs.
    destruct (envelope_parts s2 Hl) as (_ & _ & Hp).
    repeat split; auto.
    + unfold IV_LENGTH, MAC_LENGTH in *. lia.
    + rewrite Hd. cbn [pipe]. rewrite Hz. cbn [pipe]. exact Hf.
  - rewrite getMacAndUpdateHmac_short by assumption. cbn [fst snd].
    rewrite getIvAndDecipher_short by (simpl; unfold IV_LENGTH; lia).
    discriminate.
Qed.

(** X6. An import that succeeds has authenticated what it delivered: the
    first stream ends with the HMAC of the bytes before it, the bytes of the
    second stream before its last 32 have that same HMAC, they decrypt,
    decompress and reframe without error, and the frames obtained are
    exactly what the record sink received, once, after both pipelines were
    started in order. *)
Theorem import_success_is_authenticated (env : Env) (f : Factory) (w : World) :
  isRunning w = false ->
  fst (run (importBackup f) env w) = Ok tt ->
  exists km s1 s2 fs,
    getKeyMaterial env = Ok km /\ f 0 = Ok s1 /\ f 1 = Ok s2
    /\ MAC_LENGTH <= length s1
    /\ IV_LENGTH + MAC_LENGTH <= length s2
    /\ hmacSha256 (macKey km) (envelopePayload s1) = envelopeMac s1
    /\ hmacSha256 (macKey km) (envelopePayload s2) = envelopeMac s1
    /\ getIvAndDecipher (aesKey km) (envelopePayload s2)
         |> createGunzip |> DelimitedStream = Ok fs
    /\ backupImportStream env fs = Ok tt
    /\ trace (snd (run (importBackup f) env w))
       = trace w
           ++ [EvLog "importBackup: starting..."; EvPipelineStart ImportPass1;
               EvDiscard (envelopePayload s1); EvPipelineStart ImportPass2;
               EvRecords fs; EvLog "importBackup: finished..."].
Proof.
  intros Hidle. rewrite run_importBackup by assumption. cbn [fst snd].
  rewrite trace_settled.
  destruct (getKeyMaterial env) as [km|e] eqn:Hk;
    [|unfold importOutcome; rewrite Hk; discriminate].
  destruct (f 0) as [s1|e] eqn:Hs1;
    [|unfold importOutcome; rewrite Hk, Hs1; discriminate].
  destruct (le_lt_dec MAC_LENGTH (length s1)) as [Hl|Hl];
    [|rewrite (importOutcome_missing_mac env f km s1) by assumption;
      discriminate].
  destruct (constantTimeEqual (hmacSha256 (macKey km) (envelopePayload s1))
              (envelopeMac s1)) eqn:He;
    [|rewrite (importOutcome_bad_mac env f km s1) by assumption;
      discriminate].
  rewrite (importOutcome_verified env f km s1) by assumption. cbn zeta.
  destruct (secondPass km (f 1) (backupImportStream env))
    as [[[hmac2 u] evs]|e] eqn:Hp; [|discriminate].
  destruct (secondPass_events _ _ _ _ _ _ Hp)
    as (s2 & fs & Hs2 & Hl2 & -> & Hdec & Hsink & ->).
  rewrite hmacDigest_fresh.
  destruct (constantTimeEqual (hmacSha256 (macKey km) (envelopePayload s2))
              (envelopeMac s1)) eqn:He2; [|discriminate].
  intros _. exists km, s1, s2, fs.
  apply (proj1 (constantTimeEqual_iff _ _)) in He, He2.
  repeat split; auto.
Qed.

(** X7. The pipelines a call starts.  An export starts its one pipeline at
    most once and delivers no frame.  An import starts nothing, or the first
    pass, or the first pass and then the second (so the source factory is
    invoked at most twice, in that order), and writes to no byte sink. *)
Theorem pipelines_of_a_call (env : Env) (o : Operation) (w : World) :
  isRunning w = false ->
  exists evs,
    trace (snd (run (invoke o) env w)) = trace w ++ evs
    /\ match o with
       | CallExport _ =>
           (startsOf evs = [] \/ startsOf evs = [ExportPipeline])
           /\ recordsOf evs = []
       | CallImport _ =>
           (startsOf evs = [] \/ startsOf evs = [ImportPass1]
            \/ startsOf evs = [ImportPass1; ImportPass2])
           /\ writesOf evs = []
       end.
Proof.
  intros Hidle. rewrite run_invoke by assumption. cbn [fst snd].
  exists (snd (outcomeOf env o)). split; [reflexivity|].
  destruct o as [sink|f]; cbn [outcomeOf].
  - unfold exportOutcome. destruct (getKeyMaterial env) as [km|e];
      [|split; [left|]; reflexivity].
    cbn zeta.
    destruct (createCipheriv AES256CBC (aesKey km) (randomBytes env IV_LENGTH))
      as [cipher|e]; [|split; [left|]; reflexivity].
    destruct (backupExportStream env |> _ |> _ |> _ |> _ |> _ |> writeTo sink)
      as [[[] evs]|e] eqn:Hp; [|split; [right|]; reflexivity].
    apply writeTo_events in Hp. destruct Hp as (d & _ & _ & ->).
    split; [right|]; reflexivity.
  - unfold importOutcome, importFailed.
    destruct (getKeyMaterial env) as [km|e]; [|split; [left|]; reflexivity].
    destruct (f 0) as [s1|e]; [|split; [right; left|]; reflexivity].
    cbn zeta.
    destruct (snd (fst (getMacAndUpdateHmac _ _ None s1))) as [theirMac|];
      [|split; [right; left|]; reflexivity].
    destruct (constantTimeEqual _ theirMac);
      [|split; [right; left|]; reflexivity].
    destruct (secondPass km (f 1) (backupImportStream env))
      as [[[hmac2 u] evs]|e] eqn:Hp; [|split; [right; right|]; reflexivity].
    destruct (secondPass_events _ _ _ _ _ _ Hp)
      as (s2 & fs & _ & _ & _ & _ & _ & ->).
    destruct (constantTimeEqual (hmacDigest hmac2) theirMac);
      split; try (right; right); reflexivity.
Qed.

Lemma logsOf_app (a b : list Event) : logsOf (a ++ b) = logsOf a ++ logsOf b.
Proof.
  apply flat_map_app.
Qed.

(** X15. Once the first pass has verified, a failure in the second pass
    is logged and rethrown as it is and the second comparison is not
    reached: this holds when the second source stream fails, and when the
    record sink fails on the frames.  The call rejects with that error, its
    log lines are "starting" and then the failure line built from the error,
    and the pipelines it started are the first pass and then the second. *)
Theorem import_second_pass_failure_is_rethrown
    (env : Env) (f : Factory) (w : World) (km : KeyMaterial) (s1 : bytes)
    (e : Error) :
  isRunning w = false ->
  getKeyMaterial env = Ok km ->
  f 0 = Ok s1 ->
  MAC_LENGTH <= length s1 ->
  hmacSha256 (macKey km) (envelopePayload s1) = envelopeMac s1 ->
  (f 1 = Err e
   \/ exists s2 fs,
        f 1 = Ok s2 /\ MAC_LENGTH <= length s2
        /\ getIvAndDecipher (aesKey km) (envelopePayload s2)
             |> createGunzip |> DelimitedStream = Ok fs
        /\ backupImportStream env fs = Err e) ->
  let out := run (importBackup f) env w in
  fst out = Err e
  /\ logsOf (trace (snd out))
     = logsOf (trace w)
         ++ ["importBackup: starting...";
             "importBackup: failed, error: " ++ toLogFormat e]%string
  /\ startsOf (trace (snd out))
     = startsOf (trace w) ++ [ImportPass1; ImportPass2]
  /\ isRunning (snd out) = false.
Proof.
  intros Hidle Hk Hs1 Hl Hv Hcause out. unfold out.
  rewrite run_importBackup by assumption.
  rewrite (importOutcome_verified env f km s1)
    by (auto; rewrite Hv; apply constantTimeEqual_refl).
  cbn zeta.
  assert (Hp : secondPass km (f 1) (backupImportStream env) = Err e).
  { unfold secondPass.
    destruct Hcause as [Hs2|(s2 & fs & Hs2 & Hl2 & Hdec & Hsink)]; rewrite Hs2;
      cbn [pipe]; [reflexivity|].
    rewrite getMacAndUpdateHmac_long by assumption.
    unfold through, deliverTo, createGunzip, DelimitedStream in *.
    cbn [fst snd].
    destruct (getIvAndDecipher (aesKey km) (envelopePayload s2)) as [plain|e'];
      [|discriminate].
    cbn [pipe fst snd] in *.
    destruct (gunzip plain) as [rs|e']; [|discriminate].
    cbn [pipe fst snd] in *. rewrite Hdec. cbn [pipe fst snd]. rewrite Hsink.
    reflexivity. }
  rewrite Hp. unfold importFailed. cbn [fst snd].
  rewrite trace_settled, logsOf_app, startsOf_app.
  repeat split; reflexivity.
Qed.

Lemma cbcEncrypt_length (Haes : AesBlockInverse X) (key iv p : bytes) :
  length iv = IV_LENGTH ->
  length (cbcEncrypt key iv p) = BLOCK_LENGTH * S (length p / BLOCK_LENGTH).
Proof.
  intros Hiv. unfold cbcEncrypt.
  pose proof (pkcs7Pad_length p) as Hl.
  assert (Hd : length (pkcs7Pad p) / BLOCK_LENGTH = S (length p / BLOCK_LENGTH)).
  { rewrite Hl, Nat.mul_comm. apply Nat.div_mul. discriminate. }
  rewrite Hd. now apply cbcEncryptBlocks_length.
Qed.

(** X8. With a 32-byte cipher key and a 16-byte IV, the size of what an
    export writes depends on the record stream only
    through the length [n] of its compressed and padded form: it is
    [16 + 16 * (n / 16 + 1) + 32] bytes, so always at least 64 bytes, and
    always strictly longer than [n + 48]. *)
Theorem exported_envelope_size (Htag : HmacTagLength X)
    (Haes : AesBlockInverse X)
    (env : Env) (sink : Writable) (w : World) (km : KeyMaterial) (rs : bytes) :
  isRunning w = false ->
  getKeyMaterial env = Ok km ->
  length (aesKey km) = AES256_KEY_LENGTH ->
  backupExportStream env = Ok rs ->
  length (randomBytes env IV_LENGTH) = IV_LENGTH ->
  sink (EncryptedBackupEnvelope km (randomBytes env IV_LENGTH) rs) = Ok tt ->
  let n := length (gzip rs) + length (logPadding (length (gzip rs))) in
  exists e,
    writesOf (trace (snd (run (exportBackup sink) env w)))
      = writesOf (trace w) ++ [e]
    /\ length e = 16 + 16 * (n / 16 + 1) + 32
    /\ 64 <= length e
    /\ n + 48 < length e.
Proof.
  intros Hidle Hk Hkey Hrs Hiv Hsink n.
  exists (EncryptedBackupEnvelope km (randomBytes env IV_LENGTH) rs).
  rewrite (run_export_envelope env sink w km rs) by assumption.
  cbn [snd]. rewrite trace_settled, writesOf_app. split; [reflexivity|].
  assert (Hlen : length (EncryptedBackupEnvelope km (randomBytes env IV_LENGTH) rs)
                 = 16 + 16 * (n / 16 + 1) + 32).
  { unfold EncryptedBackupEnvelope, specMac, specCiphertext.
    rewrite !length_app, (Htag _ _), (cbcEncrypt_length Haes) by assumption.
    unfold specPad. rewrite length_app. fold n. rewrite Hiv.
    unfold IV_LENGTH, BLOCK_LENGTH, MAC_LENGTH. lia. }
  rewrite Hlen. repeat split; try lia.
  pose proof (Nat.div_mod_eq n 16). pose proof (Nat.mod_upper_bound n 16). lia.
Qed.

End Calls.

(* ================================================================== *)
(** * Start-up, periodic refresh and the test harness *)

Section HostFacts.
Context {X : Externals}.
Variable HOUR : N.

#[local] Arguments String.append : simpl never.

Lemma exportBackupData_idle (env : Env) (w : World) :
  isRunning w = false ->
  exportBackupData env w
  = (match fst (exportOutcome env passThrough) with
     | Ok _ => Ok (concat (writesOf (snd (exportOutcome env passThrough))))
     | Err e => Err e
     end,
     settled (snd (exportOutcome env passThrough)) w).
Proof.
  intros Hidle. unfold exportBackupData. cbn zeta.
  rewrite run_exportBackup by assumption.
  destruct (fst (exportOutcome env passThrough)); [|reflexivity].
  rewrite trace_settled, skipn_app, skipn_all, Nat.sub_diag. reflexivity.
Qed.

Lemma exportBackupData_busy (env : Env) (w : World) :
  isRunning w = true ->
  exportBackupData env w
  = (Err (AssertionError "BackupService is already running"), w).
Proof.
  intros Hbusy. unfold exportBackupData. cbn zeta.
  pose proof (run_invoke_busy env (CallExport passThrough) w Hbusy) as H.
  cbn [invoke] in H. now rewrite H.
Qed.

Lemma exportOutcome_passThrough (env : Env) (km : KeyMaterial) (rs : bytes) :
  getKeyMaterial env = Ok km ->
  length (aesKey km) = AES256_KEY_LENGTH ->
  length (randomBytes env IV_LENGTH) = IV_LENGTH ->
  backupExportStream env = Ok rs ->
  exportOutcome env passThrough
  = (Ok tt,
     [EvLog "exportBackup: starting..."; EvPipelineStart ExportPipeline;
      EvWrite (EncryptedBackupEnvelope km (randomBytes env IV_LENGTH) rs);
      EvLog "exportBackup: finished..."]).
Proof.
  intros Hk Hkey Hiv Hrs. now apply exportOutcome_envelope.
Qed.

Lemma exportBackupData_envelope (env : Env) (w : World)
    (km : KeyMaterial) (rs : bytes) :
  isRunning w = false ->
  getKeyMaterial env = Ok km ->
  length (aesKey km) = AES256_KEY_LENGTH ->
  length (randomBytes env IV_LENGTH) = IV_LENGTH ->
  backupExportStream env = Ok rs ->
  exportBackupData env w
  = (Ok (EncryptedBackupEnvelope km (randomBytes env IV_LENGTH) rs),
     settled
       [EvLog "exportBackup: starting..."; EvPipelineStart ExportPipeline;
        EvWrite (EncryptedBackupEnvelope km (randomBytes env IV_LENGTH) rs);
        EvLog "exportBackup: finished..."] w).
Proof.
  intros Hidle Hk Hkey Hiv Hrs.
  rewrite exportBackupData_idle by assumption.
  rewrite (exportOutcome_passThrough env km rs) by assumption.
  cbn [fst snd writesOf flat_map app concat]. now rewrite !app_nil_r.
Qed.

(** The cipher constructor fails exactly on a key that is not 32 bytes long
    or an IV that is not 16 bytes long. *)
Lemma createCipheriv_fails (key iv : bytes) :
  length key <> AES256_KEY_LENGTH \/ length iv <> IV_LENGTH ->
  exists e, createCipheriv AES256CBC key iv = Err e.
Proof.
  intros H. unfold createCipheriv.
  destruct (Nat.eqb_spec (length iv) IV_LENGTH) as [Hiv|Hiv]; cbn [negb];
    [|eauto].
  destruct (Nat.eqb_spec (length key) AES256_KEY_LENGTH) as [Hk|Hk];
    cbn [negb]; [|eauto].
  destruct H; contradiction.
Qed.

(** X9. [exportBackupData] resolves exactly when the service is idle, the
    key provider returns key material with a 32-byte cipher key, the IV
    drawn is 16 bytes long and the record stream ends without error, and
    what it resolves with is then the complete envelope of the wire format,
    never a part of it. *)
Theorem exportBackupData_resolves_with_envelope
    (env : Env) (w : World) (d : bytes) :
  fst (exportBackupData env w) = Ok d
  <-> isRunning w = false
      /\ exists km rs,
           getKeyMaterial env = Ok km
           /\ length (aesKey km) = AES256_KEY_LENGTH
           /\ length (randomBytes env IV_LENGTH) = IV_LENGTH
           /\ backupExportStream env = Ok rs
           /\ d = EncryptedBackupEnvelope km (randomBytes env IV_LENGTH) rs.
Proof.
  split.
  - intros Hd. destruct (isRunning w) eqn:Hw.
    { rewrite exportBackupData_busy in Hd by assumption. discriminate Hd. }
    split; [reflexivity|].
    destruct (getKeyMaterial env) as [km|e] eqn:Hk.
    2:{ rewrite exportBackupData_idle, (exportOutcome_key_error _ _ e Hk) in Hd
          by assumption.
        discriminate Hd. }
    destruct (Nat.eq_dec (length (aesKey km)) AES256_KEY_LENGTH) as [Hkey|Hkey].
    2:{ destruct (createCipheriv_fails (aesKey km) (randomBytes env IV_LENGTH)
                    (or_introl Hkey)) as [e He].
        rewrite exportBackupData_idle,
          (exportOutcome_cipher_error _ _ km e Hk He) in Hd by assumption.
        discriminate Hd. }
    destruct (Nat.eq_dec (length (randomBytes env IV_LENGTH)) IV_LENGTH)
      as [Hiv|Hiv].
    2:{ destruct (createCipheriv_fails (aesKey km) (randomBytes env IV_LENGTH)
                    (or_intror Hiv)) as [e He].
        rewrite exportBackupData_idle,
          (exportOutcome_cipher_error _ _ km e Hk He) in Hd by assumption.
        discriminate Hd. }
    destruct (backupExportStream env) as [rs|e] eqn:Hrs.
    2:{ rewrite exportBackupData_idle,
          (exportOutcome_pipeline_error _ _ km e Hk Hkey Hiv
             (or_introl Hrs)) in Hd by assumption.
        discriminate Hd. }
    rewrite (exportBackupData_envelope env w km rs) in Hd by assumption.
    injection Hd as <-. exists km, rs. auto.
  - intros [Hidle (km & rs & Hk & Hkey & Hiv & Hrs & ->)].
    now rewrite (exportBackupData_envelope env w km rs).
Qed.

(** X10. The bytes [exportBackupData] resolves with, under a 32-byte cipher
    key and a 16-byte IV, can be imported back: an import over a source
    replaying them succeeds and delivers the frames of the exported record
    stream. *)
Theorem exportBackupData_then_import
    (Htag : HmacTagLength X) (Haes : AesBlockInverse X)
    (env : Env) (w : World) (km : KeyMaterial) (rs : bytes) (R : list bytes) :
  isRunning w = false ->
  getKeyMaterial env = Ok km ->
  length (aesKey km) = AES256_KEY_LENGTH ->
  backupExportStream env = Ok rs ->
  length (randomBytes env IV_LENGTH) = IV_LENGTH ->
  gunzip (specPad (gzip rs)) = Ok rs ->
  delimitedFrames rs = Ok R ->
  backupImportStream env R = Ok tt ->
  exists d w1,
    exportBackupData env w = (Ok d, w1)
    /\ fst (run (importBackup (fun _ => Ok d)) env w1) = Ok tt
    /\ recordsOf (trace (snd (run (importBackup (fun _ => Ok d)) env w1)))
       = recordsOf (trace w) ++ R.
Proof.
  intros Hidle Hk Hkey Hrs Hiv Hz Hfr Hrec.
  exists (EncryptedBackupEnvelope km (randomBytes env IV_LENGTH) rs).
  eexists. split.
  - now apply exportBackupData_envelope.
  - rewrite (run_import_envelope Htag Haes _ _ km _ rs R); auto.
    cbn [fst snd]. rewrite !trace_settled, !recordsOf_app.
    cbn. rewrite !app_nil_r. auto.
Qed.

(** X11. [exportToDisk] creates the write stream for its path before the
    busy check: on a busy service the call is rejected with the busy error
    and the flags and the core trace are untouched, yet the stream has been
    opened.  On an idle service the export runs into that stream. *)
Theorem exportToDisk_opens_stream_before_busy_check
    (env : Env) (createWriteStream : string -> Writable) (path : string)
    (h : Host) :
  let out := exportToDisk env createWriteStream path h in
  openedPaths (hostTrace (snd out)) = openedPaths (hostTrace h) ++ [path]
  /\ (isRunning (world h) = true ->
      fst out = Err (AssertionError "BackupService is already running")
      /\ world (snd out) = world h)
  /\ (isRunning (world h) = false ->
      fst out = fst (exportOutcome env (createWriteStream path))
      /\ world (snd out)
         = settled (snd (exportOutcome env (createWriteStream path)))
             (world h)).
Proof.
  intros out. unfold out, exportToDisk, inWorld, hostEmit, onWorld.
  cbn [world hostTrace].
  destruct (run (exportBackup (createWriteStream path)) env (world h))
    as [r w'] eqn:Hrun.
  cbn [fst snd hostTrace world]. split.
  - unfold openedPaths. now rewrite flat_map_app.
  - split; intros Hflag.
    + pose proof (run_invoke_busy env (CallExport (createWriteStream path))
                    (world h) Hflag) as H.
      cbn [invoke] in H. rewrite H in Hrun.
      injection Hrun as <- <-. auto.
    + rewrite run_exportBackup in Hrun by assumption.
      injection Hrun as <- <-. auto.
Qed.

(** X12. [exportWithDialog] hands [saveAttachmentToDisk] the complete
    envelope under the name "backup.bin" and settles with its verdict when
    the export resolves (idle service, key material with a 32-byte cipher
    key, a 16-byte IV, a record stream that ends without error); when the
    export is rejected, nothing is saved and the rejection is passed on. *)
Theorem exportWithDialog_saves_envelope_or_nothing
    (env : Env) (saveAttachmentToDisk : string -> bytes -> result unit)
    (h : Host) :
  let out := exportWithDialog env saveAttachmentToDisk h in
  (forall km rs,
      isRunning (world h) = false ->
      getKeyMaterial env = Ok km ->
      length (aesKey km) = AES256_KEY_LENGTH ->
      length (randomBytes env IV_LENGTH) = IV_LENGTH ->
      backupExportStream env = Ok rs ->
      let e := EncryptedBackupEnvelope km (randomBytes env IV_LENGTH) rs in
      fst out = saveAttachmentToDisk "backup.bin"%string e
      /\ savedAttachments (hostTrace (snd out))
         = savedAttachments (hostTrace h) ++ [("backup.bin"%string, e)])
  /\ (forall err,
        fst (exportBackupData env (world h)) = Err err ->
        fst out = Err err
        /\ savedAttachments (hostTrace (snd out))
           = savedAttachments (hostTrace h)).
Proof.
  intros out. unfold out, exportWithDialog, inWorld.
  destruct (exportBackupData env (world h)) as [r w'] eqn:Hd. split.
  - intros km rs Hidle Hk Hkey Hiv Hrs.
    rewrite (exportBackupData_envelope env (world h) km rs) in Hd
      by assumption.
    injection Hd as <- <-.
    unfold hostEmit, onWorld. cbn [fst snd hostTrace]. split; [reflexivity|].
    unfold savedAttachments. now rewrite flat_map_app.
  - intros err Herr. cbn [fst] in Herr. subst r. auto.
Qed.

Lemma call_preserves_isStarted
    (env : Env) (o : Operation) (w : World) :
  isStarted (snd (run (invoke o) env w)) = isStarted w.
Proof.
  destruct (isRunning w) eqn:Hw.
  - now rewrite run_invoke_busy.
  - now rewrite run_invoke.
Qed.

Lemma exportBackupData_started (env : Env) (w : World) :
  isStarted (snd (exportBackupData env w)) = isStarted w.
Proof.
  destruct (isRunning w) eqn:Hw.
  - now rewrite exportBackupData_busy.
  - now rewrite exportBackupData_idle.
Qed.

Lemma refreshedLogs_app (a b : list Event) :
  refreshedLogs (a ++ b) = refreshedLogs a + refreshedLogs b.
Proof.
  unfold refreshedLogs, logsOf. now rewrite flat_map_app, count_occ_app.
Qed.

Lemma refreshedLogs_outcome (env : Env) (o : Operation) :
  refreshedLogs (snd (outcomeOf env o)) = 0.
Proof.
  unfold refreshedLogs. rewrite logsOf_outcome.
  destruct o as [sink|f]; [reflexivity|].
  destruct (fst (outcomeOf env (CallImport f))) as [u|e]; [reflexivity|].
  cbn [count_occ].
  destruct (string_dec "importBackup: starting..." "Backup: refreshed")
    as [E|_]; [discriminate E|].
  destruct (string_dec ("importBackup: failed, error: " ++ toLogFormat e)
              "Backup: refreshed") as [E|_]; [|reflexivity].
  cbn [String.append] in E. discriminate E.
Qed.

(** A step that only appends core events without refresh lines, and host
    events that are not counted, keeps the invariant. *)
Lemma invariant_core_step (h h' : Host) (evs : list Event) :
  HostInvariant HOUR h ->
  world h' = settled evs (world h) ->
  intervals h' = intervals h ->
  refreshing h' = refreshing h ->
  refreshedLogs evs = 0 ->
  credentialsStarts h' = credentialsStarts h ->
  apiRefreshCalls h' = apiRefreshCalls h ->
  refreshErrors h' = refreshErrors h ->
  HostInvariant HOUR h'.
Proof.
  intros (Hrun & Hint & Hcred & Hnone & Hcount) Hw Hi Hr Hlogs Hc Ha He.
  unfold HostInvariant. rewrite Hw, Hi, Hr, Hc, Ha, He.
  rewrite trace_settled, refreshedLogs_app, Hlogs.
  cbn [isRunning isStarted settled setIsRunning emit].
  repeat split; auto. lia.
Qed.

Lemma call_world_step (env : Env) (o : Operation) (w : World) :
  isRunning w = false ->
  snd (run (invoke o) env w) = settled (snd (outcomeOf env o)) w.
Proof. intros Hidle. now rewrite run_invoke. Qed.

Lemma exportBackupData_world_step (env : Env) (w : World) :
  isRunning w = false ->
  snd (exportBackupData env w)
  = settled (snd (outcomeOf env (CallExport passThrough))) w.
Proof. intros Hidle. now rewrite exportBackupData_idle. Qed.

Lemma hostStep_invariant (h : Host) (a : HostAction) :
  HostInvariant HOUR h -> HostInvariant HOUR (hostStep HOUR h a).
Proof.
  intros Hinv. pose proof Hinv as (Hrun & Hint & Hcred & Hnone & Hcount).
  destruct a as [|i|r|env o|env|env fs path|env save]; cbn [hostStep].
  - (* start *)
    unfold start. destruct (isStarted (world h)) eqn:Hst.
    + unfold HostInvariant, hostEmit, credentialsStarts, apiRefreshCalls,
        refreshErrors in *.
      cbn [world intervals refreshing hostTrace]. rewrite Hst.
      rewrite !filter_app, !length_app. cbn [filter length].
      rewrite !Nat.add_0_r. repeat split; auto; try discriminate.
    + specialize (Hnone eq_refl).
      unfold HostInvariant, runPeriodicRefresh_call, setInterval, hostEmit,
        setRefreshing, onWorld, credentialsStarts, apiRefreshCalls,
        refreshErrors in *.
      cbn [world intervals refreshing hostTrace isRunning isStarted trace
           setIsStarted emit].
      rewrite Hint. rewrite !filter_app, !length_app. cbn [filter length app].
      rewrite refreshedLogs_app.
      change (refreshedLogs [EvLog "BackupsService: starting..."]) with 0.
      repeat split; auto; try discriminate; lia.
  - (* an interval fires *)
    unfold intervalFires. destruct (nth_error (intervals h) i) as [ms|] eqn:Hn;
      [|exact Hinv].
    destruct (isStarted (world h)) eqn:Hst;
      [|rewrite Hint in Hn; destruct i; discriminate Hn].
    unfold HostInvariant, runPeriodicRefresh_call, hostEmit, setRefreshing,
      credentialsStarts, apiRefreshCalls, refreshErrors in *.
    cbn [world intervals refreshing hostTrace]. rewrite Hst.
    rewrite !filter_app, !length_app. cbn [filter length].
    repeat split; auto; try discriminate; lia.
  - (* a refresh settles *)
    unfold runPeriodicRefresh_settle.
    destruct (refreshing h) as [|n] eqn:Hn; [exact Hinv|].
    destruct (isStarted (world h)) eqn:Hst; [|specialize (Hnone eq_refl); lia].
    destruct r as [u|e]; cbn [snd];
      unfold HostInvariant, hostEmit, setRefreshing, onWorld,
        credentialsStarts, apiRefreshCalls, refreshErrors in *;
      cbn [world intervals refreshing hostTrace isRunning isStarted trace emit];
      rewrite Hst, ?filter_app, ?length_app, ?refreshedLogs_app;
      cbn [filter length];
      try change (refreshedLogs [EvLog "Backup: refreshed"]) with 1;
      repeat split; auto; try discriminate; lia.
  - (* a call *)
    unfold inWorld.
    destruct (run (invoke o) env (world h)) as [r w'] eqn:Hr. cbn [snd].
    apply (invariant_core_step h _ (snd (outcomeOf env o))); auto.
    + cbn [world onWorld]. rewrite <- (call_world_step env o _ Hrun).
      now rewrite Hr.
    + apply refreshedLogs_outcome.
  - (* exportBackupData *)
    unfold inWorld.
    destruct (exportBackupData env (world h)) as [r w'] eqn:Hr. cbn [snd].
    apply (invariant_core_step h _
             (snd (outcomeOf env (CallExport passThrough)))); auto.
    + cbn [world onWorld]. rewrite <- (exportBackupData_world_step env _ Hrun).
      now rewrite Hr.
    + apply refreshedLogs_outcome.
  - (* exportToDisk *)
    unfold exportToDisk, inWorld. cbn [world hostEmit].
    destruct (run (exportBackup (fs path)) env (world h)) as [r w'] eqn:Hr.
    cbn [snd].
    apply (invariant_core_step h _
             (snd (outcomeOf env (CallExport (fs path))))); auto.
    + cbn [world onWorld].
      rewrite <- (call_world_step env (CallExport (fs path)) _ Hrun).
      cbn [invoke]. now rewrite Hr.
    + apply refreshedLogs_outcome.
    + unfold credentialsStarts, onWorld, hostEmit. cbn [hostTrace].
      rewrite filter_app, length_app. cbn. lia.
    + unfold apiRefreshCalls, onWorld, hostEmit. cbn [hostTrace].
      rewrite filter_app, length_app. cbn. lia.
    + unfold refreshErrors, onWorld, hostEmit. cbn [hostTrace].
      rewrite filter_app, length_app. cbn. lia.
  - (* exportWithDialog *)
    unfold exportWithDialog, inWorld.
    destruct (exportBackupData env (world h)) as [r w'] eqn:Hr.
    assert (Hw : w' = settled (snd (outcomeOf env (CallExport passThrough)))
                        (world h)).
    { rewrite <- (exportBackupData_world_step env _ Hrun). now rewrite Hr. }
    destruct r as [data|e]; cbn [snd].
    + apply (invariant_core_step h _
               (snd (outcomeOf env (CallExport passThrough)))); auto.
      * apply refreshedLogs_outcome.
      * unfold credentialsStarts, onWorld, hostEmit. cbn [hostTrace].
        rewrite filter_app, length_app. cbn. lia.
      * unfold apiRefreshCalls, onWorld, hostEmit. cbn [hostTrace].
        rewrite filter_app, length_app. cbn. lia.
      * unfold refreshErrors, onWorld, hostEmit. cbn [hostTrace].
        rewrite filter_app, length_app. cbn. lia.
    + apply (invariant_core_step h _
               (snd (outcomeOf env (CallExport passThrough)))); auto.
      apply refreshedLogs_outcome.
Qed.

Lemma hostRun_invariant (actions : list HostAction) (h : Host) :
  HostInvariant HOUR h -> HostInvariant HOUR (hostRun HOUR actions h).
Proof.
  revert h. induction actions as [|a rest IH]; intros h Hinv; [exact Hinv|].
  cbn [hostRun fold_left]. apply IH. now apply hostStep_invariant.
Qed.

Lemma newService_invariant : HostInvariant HOUR newService.
Proof. repeat split. Qed.

(** X13. [start] is idempotent: whatever is done to a new service and in
    whatever order, exactly one interval timer, of period [24 * HOUR], is
    registered and the credentials are started exactly once if [start] was
    ever called, and none otherwise. *)
Theorem start_schedules_refresh_once (actions : list HostAction) :
  let h := hostRun HOUR actions newService in
  intervals h = (if isStarted (world h) then [(24 * HOUR)%N] else [])
  /\ credentialsStarts h = (if isStarted (world h) then 1 else 0)
  /\ (isStarted (world h) = true <-> In DoStart actions).
Proof.
  intros h. destruct (hostRun_invariant actions newService newService_invariant)
    as (_ & Hint & Hcred & _). fold h in Hint, Hcred.
  repeat split; auto.
  - unfold h. intros Hst.
    assert (G : forall acts h0,
               isStarted (world (hostRun HOUR acts h0)) = true ->
               isStarted (world h0) = true \/ In DoStart acts).
    { induction acts as [|a rest IH]; intros h0 H0; [auto|].
      cbn [hostRun fold_left] in H0. destruct (IH _ H0) as [H1|H1].
      - destruct a; cbn [hostStep] in H1; try (right; left; reflexivity).
        all: left.
        + unfold intervalFires in H1.
          destruct (nth_error (intervals h0) i); exact H1.
        + unfold runPeriodicRefresh_settle in H1.
          destruct (refreshing h0); [exact H1|].
          destruct refreshed; exact H1.
        + unfold inWorld in H1.
          pose proof (call_preserves_isStarted env o
                        (world h0)) as Hs.
          destruct (run (invoke o) env (world h0)); cbn in *. congruence.
        + unfold inWorld in H1.
          pose proof (exportBackupData_started env (world h0)) as Hs.
          destruct (exportBackupData env (world h0)); cbn in *. congruence.
        + unfold exportToDisk, inWorld in H1. cbn [world hostEmit] in H1.
          pose proof (call_preserves_isStarted env
                        (CallExport (createWriteStream path)) (world h0)) as Hs.
          cbn [invoke] in Hs.
          destruct (run (exportBackup (createWriteStream path)) env (world h0));
            cbn in *. congruence.
        + unfold exportWithDialog, inWorld in H1.
          pose proof (exportBackupData_started env (world h0)) as Hs.
          destruct (exportBackupData env (world h0)) as [[d|e] w'];
            cbn in *; congruence.
      - right. right. exact H1. }
    destruct (G actions newService Hst) as [H|H]; [discriminate H|exact H].
  - unfold h. intros Hin.
    assert (G : forall acts h0,
               isStarted (world h0) = true \/ In DoStart acts ->
               isStarted (world (hostRun HOUR acts h0)) = true).
    { induction acts as [|a rest IH]; intros h0 [H0|H0];
        [exact H0|contradiction| |].
      - cbn [hostRun fold_left]. apply IH. left.
        destruct a; cbn [hostStep].
        + unfold start. rewrite H0. exact H0.
        + unfold intervalFires.
          destruct (nth_error (intervals h0) i); exact H0.
        + unfold runPeriodicRefresh_settle.
          destruct (refreshing h0); [exact H0|].
          destruct refreshed; exact H0.
        + unfold inWorld.
          pose proof (call_preserves_isStarted env o
                        (world h0)) as Hs.
          destruct (run (invoke o) env (world h0)); cbn in *. congruence.
        + unfold inWorld.
          pose proof (exportBackupData_started env (world h0)) as Hs.
          destruct (exportBackupData env (world h0)); cbn in *. congruence.
        + unfold exportToDisk, inWorld. cbn [world hostEmit].
          pose proof (call_preserves_isStarted env
                        (CallExport (createWriteStream path)) (world h0)) as Hs.
          cbn [invoke] in Hs.
          destruct (run (exportBackup (createWriteStream path)) env (world h0));
            cbn in *. congruence.
        + unfold exportWithDialog, inWorld.
          pose proof (exportBackupData_started env (world h0)) as Hs.
          destruct (exportBackupData env (world h0)) as [[d|e] w'];
            cbn in *; congruence.
      - cbn [hostRun fold_left]. cbn [In] in H0. destruct H0 as [->|H0].
        + apply IH. left. cbn [hostStep]. unfold start.
          destruct (isStarted (world h0)) eqn:E; [exact E|reflexivity].
        + apply IH. right. exact H0. }
    apply G. right. exact Hin.
Qed.

(** X14. Whatever is done to a new service, every [api.refresh()] call of
    [runPeriodicRefresh] is either still pending or was logged exactly once
    when it settled, as "Backup: refreshed" or as an error line; none is
    made before [start]; and no refresh, start or awaited call leaves
    [isRunning] set. *)
Theorem every_refresh_is_accounted_for (actions : list HostAction) :
  let h := hostRun HOUR actions newService in
  apiRefreshCalls h
    = refreshing h + refreshedLogs (trace (world h)) + refreshErrors h
  /\ (isStarted (world h) = false -> apiRefreshCalls h = 0)
  /\ isRunning (world h) = false.
Proof.
  intros h. destruct (hostRun_invariant actions newService newService_invariant)
    as (Hrun & _ & _ & Hnone & Hcount).
  auto.
Qed.

End HostFacts.

Lemma sequential_calls_witness :
  fst (runAll (X := Toy.externals) ToyCases.twoCalls idle)
  = [Err (AssertionError "importBackup: Bad MAC"); Ok tt].
Proof.
  exact (proj1 (sequential_calls_never_busy (X := Toy.externals)
                  ToyCases.twoCalls idle eq_refl)).
Defined.

Lemma export_fails_with_short_key_witness :
  fst (run (exportBackup (X := Toy.externals) Toy.acceptBytes)
         ToyCases.envShortKey idle)
  = Err (CipherError "Invalid key length")
  /\ startsOf (trace (snd (run (exportBackup (X := Toy.externals)
                                  Toy.acceptBytes)
                             ToyCases.envShortKey idle)))
     = [].
Proof.
  exact (proj1 (proj2 (proj2
    (export_fails_only_with_a_collaborator (X := Toy.externals)
       ToyCases.envShortKey Toy.acceptBytes idle eq_refl eq_refl)))
    ToyCases.shortKeys eq_refl ltac:(vm_compute; discriminate)).
Defined.

Lemma import_fails_with_key_provider_witness :
  run (importBackup (X := Toy.externals) (Toy.replay Toy.envelope1))
      ToyCases.envNoKey idle
  = (Err (ExternalError "no key material"),
     settled [EvLog "importBackup: starting...";
              EvLog "importBackup: failed, error: no key material"] idle).
Proof.
  exact (proj1
    (import_fails_early_with_collaborator (X := Toy.externals)
       ToyCases.envNoKey (Toy.replay Toy.envelope1) idle eq_refl)
    (ExternalError "no key material") eq_refl).
Defined.

Lemma log_lines_witness :
  exists evs,
    trace (snd (run (invoke (X := Toy.externals)
                       (CallImport (Toy.replay (repeat x00 40))))
                  (Toy.env Toy.iv1) idle)) = evs
    /\ logsOf evs
       = ["importBackup: starting...";
          "importBackup: failed, error: importBackup: Bad MAC"]%string.
Proof.
  destruct (log_lines_of_a_call (X := Toy.externals) (Toy.env Toy.iv1)
              (CallImport (Toy.replay (repeat x00 40))) idle eq_refl)
    as (evs & Ht & Hl).
  exists evs. split; [exact Ht|exact Hl].
Defined.

Lemma import_success_witness :
  exists km s1 s2 fs,
    getKeyMaterial (Toy.env Toy.iv1) = Ok km
    /\ Toy.replay Toy.envelope1 0 = Ok s1 /\ Toy.replay Toy.envelope1 1 = Ok s2
    /\ hmacSha256 (Externals := Toy.externals) (macKey km) (envelopePayload s2)
       = envelopeMac s1
    /\ backupImportStream (Toy.env Toy.iv1) fs = Ok tt.
Proof.
  destruct (import_success_is_authenticated (X := Toy.externals)
              (Toy.env Toy.iv1) (Toy.replay Toy.envelope1) idle
              eq_refl eq_refl)
    as (km & s1 & s2 & fs & Hk & H1 & H2 & _ & _ & _ & Hm & _ & Hs & _).
  exists km, s1, s2, fs. auto.
Defined.

Lemma pipelines_witness :
  exists evs,
    trace (snd (run (invoke (X := Toy.externals)
                       (CallImport (Toy.replay Toy.envelope1)))
                  (Toy.env Toy.iv1) idle)) = evs
    /\ (startsOf evs = [] \/ startsOf evs = [ImportPass1]
        \/ startsOf evs = [ImportPass1; ImportPass2])
    /\ writesOf evs = [].
Proof.
  destruct (pipelines_of_a_call (X := Toy.externals) (Toy.env Toy.iv1)
              (CallImport (Toy.replay Toy.envelope1)) idle eq_refl)
    as (evs & Ht & Hs & Hw).
  exists evs. auto.
Defined.

Lemma exported_envelope_size_witness :
  exists e,
    writesOf (trace (snd (run (exportBackup (X := Toy.externals)
                                 Toy.acceptBytes) (Toy.env Toy.iv1) idle)))
      = [e]
    /\ length e = 80.
Proof.
  destruct (exported_envelope_size (X := Toy.externals)
              toy_hmac_tag_length toy_aes_block_inverse
              (Toy.env Toy.iv1) Toy.acceptBytes idle Toy.keys Toy.recordStream
              eq_refl eq_refl eq_refl eq_refl eq_refl eq_refl)
    as (e & Hw & Hl & _).
  exists e. split; [exact Hw|exact Hl].
Defined.

Lemma exportBackupData_then_import_witness :
  exists d w1,
    exportBackupData (X := Toy.externals) (Toy.env Toy.iv1) idle = (Ok d, w1)
    /\ fst (run (importBackup (X := Toy.externals) (fun _ => Ok d))
              (Toy.env Toy.iv1) w1) = Ok tt
    /\ recordsOf (trace (snd (run (importBackup (X := Toy.externals)
                                     (fun _ => Ok d))
                                (Toy.env Toy.iv1) w1)))
       = Toy.records.
Proof.
  apply (exportBackupData_then_import (X := Toy.externals)
           toy_hmac_tag_length toy_aes_block_inverse
           (Toy.env Toy.iv1) idle Toy.keys Toy.recordStream Toy.records);
    reflexivity.
Defined.

Lemma import_second_pass_failure_witness :
  fst (run (importBackup (X := Toy.externals)
              (fun n => match n with
                        | 0 => Ok Toy.envelope1
                        | _ => Err (ExternalError "source closed")
                        end))
         (Toy.env Toy.iv1) idle)
  = Err (ExternalError "source closed").
Proof.
  exact (proj1
    (import_second_pass_failure_is_rethrown (X := Toy.externals)
       (Toy.env Toy.iv1)
       (fun n => match n with
                 | 0 => Ok Toy.envelope1
                 | _ => Err (ExternalError "source closed")
                 end)
       idle Toy.keys Toy.envelope1 (ExternalError "source closed")
       eq_refl eq_refl eq_refl ltac:(vm_compute; lia) eq_refl
       (or_introl eq_refl))).
Defined.

Lemma exportBackupData_resolves_witness :
  fst (exportBackupData (X := Toy.externals) (Toy.env Toy.iv1) idle)
  = Ok Toy.envelope1.
Proof.
  apply (proj2 (exportBackupData_resolves_with_envelope (X := Toy.externals)
                  (Toy.env Toy.iv1) idle Toy.envelope1)).
  split; [reflexivity|]. exists Toy.keys, Toy.recordStream.
  repeat split; reflexivity.
Defined.

Lemma exportWithDialog_saves_envelope_witness :
  savedAttachments
    (hostTrace (snd (exportWithDialog (X := Toy.externals) (Toy.env Toy.iv1)
                       (fun _ _ => Ok tt) newService)))
  = [("backup.bin"%string, Toy.envelope1)].
Proof.
  exact (proj2
    (proj1 (exportWithDialog_saves_envelope_or_nothing (X := Toy.externals)
              (Toy.env Toy.iv1) (fun _ _ => Ok tt) newService)
       Toy.keys Toy.recordStream eq_refl eq_refl eq_refl eq_refl eq_refl)).
Defined.
